(** * Bigram counting pipeline of [src/data_processing.py]

    A shallow embedding of the four pure functions of the module
    ([load_and_preprocess_data], [char_to_index], [index_to_char],
    [count_bigrams]) together with the Python and PyTorch primitives they
    call, followed by the properties of the pipeline.

    Conventions of the embedding:
    - a Python [str] is a [string]; a character is a one-character [str],
      as in Python.  Characters range over the code points below 256, on
      which [str.lower] and [str.isspace] are given in full below; the
      extractor is given a second time, in [Text], for text of any code
      points, with the runtime's tables as a parameter;
    - a Python [int] is a [Z]; lengths and positions that are never
      negative are [nat];
    - a Python [dict] is an association list with pairwise distinct keys in
      insertion order (assignment to a present key keeps its position);
    - a [torch.int32] tensor of rank two is a list of rows of [Z], every
      stored value wrapped to 32 bits;
    - a raised exception is the [Raise] case of [result];
    - the file read on line 29-30 is represented by its list of lines. *)

From Stdlib Require Import Ascii String ZArith Lia.
From stdpp Require Import base strings numbers list.

Local Open Scope string_scope.
Local Open Scope Z_scope.
Local Open Scope list_scope.

(** ** Exceptions *)

Inductive exn : Type := IndexError | KeyError | TypeError.

Inductive result (A : Type) : Type :=
  | Ok (a : A)
  | Raise (e : exn).
Arguments Ok {A} a.
Arguments Raise {A} e.

Definition result_bind {A B} (f : A → result B) (m : result A) : result B :=
  match m with
  | Ok a => f a
  | Raise e => Raise e
  end.

#[global] Instance result_ret : MRet result := λ A a, Ok a.
#[global] Instance result_fmap : FMap result := λ A B f m,
  match m with Ok a => Ok (f a) | Raise e => Raise e end.
#[global] Instance result_mbind : MBind result := λ A B f m, result_bind f m.

(** The [for x in xs: s = body(s, x)] loop, stopping at the first exception. *)
Fixpoint for_each {A S} (body : S → A → result S) (xs : list A) (s : S)
  : result S :=
  match xs with
  | [] => Ok s
  | x :: xs' => s' ← body s x; for_each body xs' s'
  end.

(** A list comprehension [[f(x) for x in xs]] whose element may raise. *)
Fixpoint comprehension {A B} (f : A → result B) (xs : list A)
  : result (list B) :=
  match xs with
  | [] => Ok []
  | x :: xs' => y ← f x; ys ← comprehension f xs'; Ok (y :: ys)
  end.

(** ** Python strings *)

Module Str.

(** The one-character string holding [c]. *)
Definition char (c : ascii) : string := String c "".

(** [str.isspace] on one code point below 256: TAB, LF, VT, FF, CR,
    FS, GS, RS, US, SPACE, NEL and NBSP. *)
Definition isspace (c : ascii) : bool :=
  let n := N_of_ascii c in
  ((9 <=? n) && (n <=? 13) || (28 <=? n) && (n <=? 32)
   || (n =? 133) || (n =? 160))%N.

(** [str.lower] on one code point below 256: A-Z and the capital
    letters of the Latin-1 block (all but the multiplication sign at 215)
    move up by 32.  On these strings lowercasing works character by
    character and keeps the length; [Text] below makes neither
    assumption. *)
Definition lower_char (c : ascii) : ascii :=
  let n := N_of_ascii c in
  if ((65 <=? n) && (n <=? 90) || (192 <=? n) && (n <=? 222)
      && negb (n =? 215))%N
  then ascii_of_N (n + 32) else c.

Fixpoint lower (s : string) : string :=
  match s with
  | EmptyString => EmptyString
  | String c s' => String (lower_char c) (lower s')
  end.

(** [s[i]] for [0 <= i]: a one-character string, or [IndexError]. *)
Definition getitem (s : string) (i : nat) : result string :=
  match String.get i s with
  | Some c => Ok (char c)
  | None => Raise IndexError
  end.

(** [s.split()]: the maximal runs of non-whitespace characters.  [cur]
    is the run being read. *)
Fixpoint split_from (cur : string) (s : string) : list string :=
  match s with
  | EmptyString => if decide (cur = "") then [] else [cur]
  | String c s' =>
      if isspace c then
        if decide (cur = "") then split_from "" s'
        else cur :: split_from "" s'
      else split_from (cur +:+ char c) s'
  end.

Definition split (s : string) : list string := split_from "" s.

(** [enumerate(s, start)]: the characters of [s] with their numbers. *)
Fixpoint enumerate (s : string) (start : Z) : list (Z * string) :=
  match s with
  | EmptyString => []
  | String c s' => (start, char c) :: enumerate s' (start + 1)
  end.

(** ["".join(xs)] *)
Definition join (xs : list string) : string := foldr String.append "" xs.

(** The characters of [s], each as a one-character string. *)
Fixpoint chars (s : string) : list string :=
  match s with
  | EmptyString => []
  | String c s' => char c :: chars s'
  end.

End Str.

(** ** Python dictionaries *)

Abbreviation dict K V := (list (K * V)) (only parsing).

Section Dict.
Context {K V : Type} `{EqDecision K}.

(** [d.get(k)] *)
Fixpoint dict_get (d : dict K V) (k : K) : option V :=
  match d with
  | [] => None
  | (k', v) :: d' => if decide (k = k') then Some v else dict_get d' k
  end.

(** [k in d] *)
Definition dict_mem (d : dict K V) (k : K) : bool :=
  match dict_get d k with Some _ => true | None => false end.

(** [d[k]] *)
Definition dict_getitem (d : dict K V) (k : K) : result V :=
  match dict_get d k with
  | Some v => Ok v
  | None => Raise KeyError
  end.

(** [d[k] = v]: a present key keeps its place, a new one goes last. *)
Fixpoint dict_set (d : dict K V) (k : K) (v : V) : dict K V :=
  match d with
  | [] => [(k, v)]
  | (k', v') :: d' =>
      if decide (k = k') then (k', v) :: d' else (k', v') :: dict_set d' k v
  end.

(** [len(d)] *)
Definition dict_len (d : dict K V) : nat := length d.

(** [d.items()], in insertion order. *)
Definition dict_items (d : dict K V) : list (K * V) := d.

(** [list(d.keys())] and [list(d.values())] *)
Definition dict_keys (d : dict K V) : list K := d.*1.
Definition dict_values (d : dict K V) : list V := d.*2.

(** [for a, b in xs: d[b] = a] *)
Definition dict_assign_each (xs : list (V * K)) (d : dict K V) : dict K V :=
  fold_left (λ d '(a, b), dict_set d b a) xs d.

End Dict.

(** ** Rank-two [torch.int32] tensors *)

Module Tensor.

Abbreviation tensor := (list (list Z)).

(** [torch.zeros((r, c), dtype=torch.int32)] *)
Definition zeros (r c : nat) : tensor := replicate r (replicate c 0).

(** Two's complement wrap-around of 32-bit arithmetic. *)
Definition wrap32 (z : Z) : Z := (z + 2 ^ 31) mod 2 ^ 32 - 2 ^ 31.

(** Indexing one dimension of extent [size] with a Python [int]:
    a negative index counts from the end, anything outside
    [-size, size) raises.  This is the behaviour for the indices that fit
    64 bits; what the conversion of a larger one raises is not described
    here. *)
Definition norm_index (size : nat) (i : Z) : result nat :=
  let n := Z.of_nat size in
  if decide (0 ≤ i < n) then Ok (Z.to_nat i)
  else if decide (- n ≤ i < 0) then Ok (Z.to_nat (i + n))
  else Raise IndexError.

(** [t[i, j] += delta] *)
Definition add_at (t : tensor) (i j : Z) (delta : Z) : result tensor :=
  r ← norm_index (length t) i;
  match t !! r with
  | None => Raise IndexError
  | Some row =>
      c ← norm_index (length row) j;
      match row !! c with
      | None => Raise IndexError
      | Some x => Ok (<[r := <[c := wrap32 (x + delta)]> row]> t)
      end
  end.

(** [t[i, j]] for in-range, non-negative positions. *)
Definition cell (t : tensor) (i j : nat) : option Z :=
  row ← t !! i; row !! j.

Definition sum_row (row : list Z) : Z := foldr Z.add 0 row.

(** [t.sum()], as a mathematical integer. *)
Definition sum (t : tensor) : Z := foldr (λ row acc, sum_row row + acc) 0 t.

(** [t.shape == (r, c)] *)
Definition has_shape (t : tensor) (r c : nat) : Prop :=
  length t = r ∧ Forall (λ row, length row = c) t.

End Tensor.

(** ** The functions of [data_processing.py] *)

Abbreviation bigram := (string * string)%type.

(** Line 45: [[(pw[i], pw[i + 1]) for i in range(len(pw) - 1)]].
    [range] of a non-positive number is empty, which the truncated
    subtraction of [nat] reproduces. *)
Definition word_bigrams (processed_word : string) : result (list bigram) :=
  comprehension
    (λ i, a ← Str.getitem processed_word i;
          b ← Str.getitem processed_word (i + 1);
          Ok (a, b))
    (seq 0 (String.length processed_word - 1)).

(** Lines 34-46: the loop over the lines, [bigrams] being the list
    extended so far. *)
Fixpoint load_loop (lines : list string) (start_token end_token : string)
    (bigrams : list bigram) : result (list bigram) :=
  match lines with
  | [] => Ok bigrams
  | line :: lines' =>
      match Str.split line with
      | [] => load_loop lines' start_token end_token bigrams
      | part0 :: _ =>
          let word := Str.lower part0 in
          let processed_word := start_token +:+ word +:+ end_token in
          wbs ← word_bigrams processed_word;
          load_loop lines' start_token end_token (bigrams ++ wbs)
      end
  end.

(** [load_and_preprocess_data], on the lines of the file: [lines] is the
    value of [file.read().splitlines()] on line 30. *)
Definition load_and_preprocess_data (lines : list string)
    (start_token end_token : string) : result (list bigram) :=
  load_loop lines start_token end_token [].

(** [char_to_index], lines 65-74. *)
Definition char_to_index (alphabet start_token end_token : string)
  : dict string Z :=
  let char_to_idx := dict_set [] start_token 0 in
  let char_to_idx :=
    dict_assign_each (Str.enumerate alphabet 1) char_to_idx in
  dict_set char_to_idx end_token (Z.of_nat (String.length alphabet) + 1).

(** [index_to_char], line 88: the comprehension assigns
    [idx_to_char[index] = char] for each item in turn. *)
Definition index_to_char (char_to_index : dict string Z) : dict Z string :=
  dict_assign_each (dict_items char_to_index) [].

(** Lines 119-122: the body of the counting loop. *)
Definition count_step (char_to_idx : dict string Z)
    (bigram_counts : Tensor.tensor) (bg : bigram) : result Tensor.tensor :=
  let '(char1, char2) := bg in
  if dict_mem char_to_idx char1 && dict_mem char_to_idx char2 then
    idx1 ← dict_getitem char_to_idx char1;
    idx2 ← dict_getitem char_to_idx char2;
    Tensor.add_at bigram_counts idx1 idx2 1
  else Ok bigram_counts.

(** [count_bigrams], lines 114-124. *)
Definition count_bigrams (bigrams : list bigram) (char_to_idx : dict string Z)
  : result Tensor.tensor :=
  let vocab_size := dict_len char_to_idx in
  let bigram_counts := Tensor.zeros vocab_size vocab_size in
  for_each (count_step char_to_idx) bigrams bigram_counts.

(** The script of lines 150-169, up to the plot. *)
Definition pipeline (lines : list string) (alphabet start_token end_token : string)
  : result Tensor.tensor :=
  let char_to_idx := char_to_index alphabet start_token end_token in
  bigrams ← load_and_preprocess_data lines start_token end_token;
  count_bigrams bigrams char_to_idx.

(** ** The same counting loop over a store of mutable objects

    Python passes the bigram list and the mapping by reference and the
    tensor is updated in place.  To speak about what [count_bigrams] writes,
    the objects live in a store addressed by location; the function
    receives the locations of its two arguments and returns the location of
    the tensor it allocates. *)

Module Store.

Inductive obj : Type :=
  | OList (l : list bigram)
  | ODict (d : dict string Z)
  | OTensor (t : Tensor.tensor).

Abbreviation loc := nat.

(** Objects by location; allocation appends. *)
Abbreviation store := (list obj).

(** A computation reads and writes the store and may raise; the store
    survives the exception. *)
Definition M (A : Type) : Type := store → result A * store.

Definition ret {A} (a : A) : M A := λ h, (Ok a, h).

Definition bind {A B} (m : M A) (f : A → M B) : M B :=
  λ h, match m h with
       | (Ok a, h') => f a h'
       | (Raise e, h') => (Raise e, h')
       end.

Definition lift {A} (r : result A) : M A := λ h, (r, h).

Notation "x <- m ;; k" := (bind m (λ x, k))
  (at level 100, m at next level, right associativity).

Definition read_list (l : loc) : M (list bigram) :=
  λ h, match h !! l with
       | Some (OList xs) => (Ok xs, h)
       | _ => (Raise TypeError, h)
       end.

Definition read_dict (l : loc) : M (dict string Z) :=
  λ h, match h !! l with
       | Some (ODict d) => (Ok d, h)
       | _ => (Raise TypeError, h)
       end.

Definition read_tensor (l : loc) : M Tensor.tensor :=
  λ h, match h !! l with
       | Some (OTensor t) => (Ok t, h)
       | _ => (Raise TypeError, h)
       end.

Definition write_tensor (l : loc) (t : Tensor.tensor) : M unit :=
  λ h, match h !! l with
       | Some (OTensor _) => (Ok tt, <[l := OTensor t]> h)
       | _ => (Raise TypeError, h)
       end.

Definition new (o : obj) : M loc := λ h, (Ok (length h), h ++ [o]).

(** Lines 119-122 on the objects at [char_to_idx] and [bigram_counts].
    The membership tests and the two lookups read the mapping object;
    nothing is written between them, so one read stands for the four. *)
Definition count_body (char_to_idx bigram_counts : loc) (bg : bigram)
  : M unit :=
  let '(char1, char2) := bg in
  d <- read_dict char_to_idx ;;
  if dict_mem d char1 && dict_mem d char2 then
    idx1 <- lift (dict_getitem d char1) ;;
    idx2 <- lift (dict_getitem d char2) ;;
    t <- read_tensor bigram_counts ;;
    t' <- lift (Tensor.add_at t idx1 idx2 1) ;;
    write_tensor bigram_counts t'
  else ret tt.

(** The list iterator of line 118: element [i] is read from the list
    object when the loop reaches it; the loop ends at the first position
    past the end.  [steps] bounds the number of iterations by the length
    the list has when the loop starts. *)
Fixpoint iterate (lst : loc) (body : bigram → M unit) (i steps : nat)
  : M unit :=
  match steps with
  | O => ret tt
  | S steps' =>
      xs <- read_list lst ;;
      match xs !! i with
      | None => ret tt
      | Some x => _ <- body x ;; iterate lst body (S i) steps'
      end
  end.

(** [count_bigrams] on the objects at [bigrams] and [char_to_idx]. *)
Definition count_bigrams (bigrams char_to_idx : loc) : M loc :=
  d <- read_dict char_to_idx ;;
  let vocab_size := dict_len d in
  bigram_counts <- new (OTensor (Tensor.zeros vocab_size vocab_size)) ;;
  xs <- read_list bigrams ;;
  _ <- iterate bigrams (count_body char_to_idx bigram_counts) 0 (length xs) ;;
  ret bigram_counts.

(** Lines 161-169: the mapping and the bigram list are built, then
    counted. *)
Definition pipeline (lines : list string)
    (alphabet start_token end_token : string) : M loc :=
  char_to_idx <- new (ODict (char_to_index alphabet start_token end_token)) ;;
  bgs <- lift (load_and_preprocess_data lines start_token end_token) ;;
  bigrams <- new (OList bgs) ;;
  count_bigrams bigrams char_to_idx.

(** The tensor stored at [l], if any. *)
Definition tensor_at (h : store) (l : loc) : option Tensor.tensor :=
  match h !! l with
  | Some (OTensor t) => Some t
  | _ => None
  end.

(** What a run yields: the table behind the returned location, or the
    exception. *)
Definition outcome (x : result loc * store) : result (option Tensor.tensor) :=
match x with
| (Ok l, h) => Ok (tensor_at h l)
| (Raise e, _) => Raise e
end.

End Store.

(** ** Vocabulary of the statements *)

(** The pairs of neighbouring elements of a list, in order. *)
Definition adjacent_pairs (cs : list string) : list bigram := zip cs (tail cs).

(** What one line adds to the bigram list. *)
Definition line_bigrams (start_token end_token line : string) : list bigram :=
  match Str.split line with
  | [] => []
  | part0 :: _ =>
      adjacent_pairs (Str.chars (start_token +:+ Str.lower part0 +:+ end_token))
  end.

(** A line made of whitespace only (the empty line included). *)
Definition blank (line : string) : Prop :=
  Forall (λ c, Str.isspace c = true) (list_ascii_of_string line).

(** The keys [char_to_index] assigns, in the order of assignment. *)
Definition symbols (alphabet start_token end_token : string) : list string :=
  start_token :: Str.chars alphabet ++ [end_token].

(** The configuration the callers are asked to provide: an alphabet of
    unique characters containing neither token, and two different tokens. *)
Definition valid_vocab (alphabet start_token end_token : string) : Prop :=
  NoDup (Str.chars alphabet)
  ∧ (start_token ∉ Str.chars alphabet)
  ∧ (end_token ∉ Str.chars alphabet)
  ∧ start_token ≠ end_token.

(** Every index of the mapping addresses a row and a column of the table
    built from it. *)
Definition indices_in_range (d : dict string Z) : Prop :=
  Forall (λ kv, 0 ≤ kv.2 < Z.of_nat (dict_len d)) d.

(** Both characters of the bigram are keys of the mapping. *)
Definition in_vocab (d : dict string Z) (bg : bigram) : bool :=
  dict_mem d bg.1 && dict_mem d bg.2.

(** The bigram is in the vocabulary and its cell is [(i, j)]. *)
Definition lands_on (d : dict string Z) (i j : nat) (bg : bigram) : bool :=
  bool_decide (dict_get d bg.1 = Some (Z.of_nat i)
               ∧ dict_get d bg.2 = Some (Z.of_nat j)).

(** How many bigrams of the list have cell [(i, j)]. *)
Definition occurrences (d : dict string Z) (i j : nat) (bgs : list bigram)
  : nat :=
  length (List.filter (lands_on d i j) bgs).

(** How many bigrams of the list are in the vocabulary. *)
Definition in_vocab_count (d : dict string Z) (bgs : list bigram) : nat :=
  length (List.filter (in_vocab d) bgs).

(** ** [plot_bigram_counts] and the script

    The calls to [matplotlib.pyplot] are recorded in the order they are
    made, with the arguments the source passes, and are taken to return
    normally; an exception of a lookup ends the drawing and leaves the
    calls made so far. *)

Module Plot.

(** What [plt.text] is given to draw: a string or a number. *)
Inductive label : Type :=
  | LStr (s : string)
  | LInt (n : Z).

Inductive call : Type :=
  | Figure (width height : Z)
  | Imshow (data : Tensor.tensor) (cmap : string)
  | Text (x y : nat) (s : label) (ha va color : string)
  | Axis (arg : string)
  | Show.

Abbreviation drawing := (list call * result unit)%type.

(** A [for] loop whose body draws and may raise. *)
Fixpoint run_each {A} (body : A → drawing) (xs : list A) : drawing :=
  match xs with
  | [] => ([], Ok tt)
  | x :: xs' =>
      match body x with
      | (cs, Ok _) => let '(cs', r) := run_each body xs' in (cs ++ cs', r)
      | (cs, Raise e) => (cs, Raise e)
      end
  end.

(** [bigram_counts.shape[0]] and [bigram_counts.shape[1]] of a rectangular
    table; the second is only read when there is a row. *)
Definition shape0 (t : Tensor.tensor) : nat := length t.
Definition shape1 (t : Tensor.tensor) : nat :=
  match t with
  | [] => 0
  | row :: _ => length row
  end.

(** Lines 140-144: the two texts of cell [(i, j)]. *)
Definition annotate (bigram_counts : Tensor.tensor) (idx_to_char : dict Z string)
    (i j : nat) : drawing :=
  match dict_getitem idx_to_char (Z.of_nat i) with
  | Raise e => ([], Raise e)
  | Ok ci =>
      match dict_getitem idx_to_char (Z.of_nat j) with
      | Raise e => ([], Raise e)
      | Ok cj =>
          let char_str := ci +:+ cj in
          let upper := Text j i (LStr char_str) "center" "bottom" "gray" in
          match Tensor.cell bigram_counts i j with
          | None => ([upper], Raise IndexError)
          | Some v =>
              ([upper; Text j i (LInt v) "center" "top" "gray"], Ok tt)
          end
      end
  end.

(** Lines 138-144: the two nested loops. *)
Definition annotate_all (bigram_counts : Tensor.tensor)
    (idx_to_char : dict Z string) : drawing :=
  run_each
    (λ i, run_each (λ j, annotate bigram_counts idx_to_char i j)
            (seq 0 (shape1 bigram_counts)))
    (seq 0 (shape0 bigram_counts)).

(** [plot_bigram_counts], lines 135-147. *)
Definition plot_bigram_counts (bigram_counts : Tensor.tensor)
    (idx_to_char : dict Z string) : drawing :=
  let '(cs, r) := annotate_all bigram_counts idx_to_char in
  match r with
  | Ok _ =>
      ([Figure 16 16; Imshow bigram_counts "Blues"] ++ cs ++ [Axis "off"; Show],
       Ok tt)
  | Raise e => ([Figure 16 16; Imshow bigram_counts "Blues"] ++ cs, Raise e)
  end.

(** Lines 161-175: the run block, for a file of the given lines and the
    given configuration. *)
Definition main (lines : list string) (alphabet start_token end_token : string)
  : drawing :=
  let char_to_idx := char_to_index alphabet start_token end_token in
  match load_and_preprocess_data lines start_token end_token with
  | Raise e => ([], Raise e)
  | Ok bigrams =>
      match count_bigrams bigrams char_to_idx with
      | Raise e => ([], Raise e)
      | Ok bigram_counts =>
          let idx_to_char := index_to_char char_to_idx in
          plot_bigram_counts bigram_counts idx_to_char
      end
  end.

End Plot.

(** ** The extractor over text of any code points

    [load_and_preprocess_data] once more, for text that is not confined to
    the code points below 256.  What [str.isspace] and [str.lower] answer
    is decided by the Unicode tables of the Python runtime, which are no
    part of the source: they are the two fields of [runtime], and the
    statements about this extractor hold for every runtime.  In
    particular [lower] is any function from strings to strings: it need
    not work character by character, nor keep the length. *)

Module Text.

Record runtime : Type := {
  isspace : N → bool;
  lower : list N → list N
}.

(** [s[i]] for [0 <= i]: a one-character string, or [IndexError]. *)
Definition getitem (s : list N) (i : nat) : result (list N) :=
  match s !! i with
  | Some c => Ok [c]
  | None => Raise IndexError
  end.

(** [s.split()]: the maximal runs of non-whitespace characters.  [cur]
    is the run being read. *)
Fixpoint split_from (py : runtime) (cur s : list N) : list (list N) :=
  match s with
  | [] => if decide (cur = []) then [] else [cur]
  | c :: s' =>
      if isspace py c then
        if decide (cur = []) then split_from py [] s'
        else cur :: split_from py [] s'
      else split_from py (cur ++ [c]) s'
  end.

Definition split (py : runtime) (s : list N) : list (list N) :=
  split_from py [] s.

(** Line 45: [[(pw[i], pw[i + 1]) for i in range(len(pw) - 1)]]. *)
Definition word_bigrams (processed_word : list N)
  : result (list (list N * list N)) :=
  comprehension
    (λ i, a ← getitem processed_word i;
          b ← getitem processed_word (i + 1);
          Ok (a, b))
    (seq 0 (length processed_word - 1)).

(** Lines 34-46: the loop over the lines. *)
Fixpoint load_loop (py : runtime) (lines : list (list N))
    (start_token end_token : list N) (bigrams : list (list N * list N))
  : result (list (list N * list N)) :=
  match lines with
  | [] => Ok bigrams
  | line :: lines' =>
      match split py line with
      | [] => load_loop py lines' start_token end_token bigrams
      | part0 :: _ =>
          let word := lower py part0 in
          let processed_word := start_token ++ word ++ end_token in
          wbs ← word_bigrams processed_word;
          load_loop py lines' start_token end_token (bigrams ++ wbs)
      end
  end.

(** [load_and_preprocess_data], on the lines of the file. *)
Definition load_and_preprocess_data (py : runtime) (lines : list (list N))
    (start_token end_token : list N) : result (list (list N * list N)) :=
  load_loop py lines start_token end_token [].

(** *** Vocabulary of the statements *)

(** The characters of a string, each as a one-character string. *)
Definition chars (s : list N) : list (list N) := (λ c, [c]) <$> s.

(** The pairs of neighbouring elements of a list, in order. *)
Definition adjacent {A} (cs : list A) : list (A * A) := zip cs (tail cs).

(** What one line adds to the bigram list. *)
Definition line_bigrams (py : runtime) (start_token end_token line : list N)
  : list (list N * list N) :=
  match split py line with
  | [] => []
  | part0 :: _ => adjacent (chars (start_token ++ lower py part0 ++ end_token))
  end.

(** The number of bigrams a line adds. *)
Definition line_bigram_count (py : runtime)
    (start_token end_token line : list N) : nat :=
  match split py line with
  | [] => 0
  | part0 :: _ =>
      length start_token + length (lower py part0) + length end_token - 1
  end.

(** The one-character string [x] comes from a sentinel or from the
    lowercased first token of some line. *)
Definition from_input (py : runtime) (lines : list (list N))
    (start_token end_token x : list N) : Prop :=
  ∃ c : N,
    x = [c]
    ∧ (c ∈ start_token ∨ c ∈ end_token
       ∨ ∃ line part0 rest,
           line ∈ lines ∧ split py line = part0 :: rest ∧ c ∈ lower py part0).

(** *** A runtime to compute with *)

(** The code points of a string of characters below 256. *)
Definition of_string (s : string) : list N :=
  N_of_ascii <$> list_ascii_of_string s.

(** [str.isspace] on the code points below 256; no answer is modelled for
    the others, which the examples do not use. *)
Definition isspace_below_256 (c : N) : bool :=
  ((9 <=? c) && (c <=? 13) || (28 <=? c) && (c <=? 32)
   || (c =? 133) || (c =? 160))%N.

(** [str.lower] of one character, for the code points below 256 and for
    U+0130, the capital I with a dot, whose lowercase is the two code
    points U+0069 U+0307; the other code points are left alone, which is
    Python's answer for these two ranges only. *)
Definition lower_char (c : N) : list N :=
  if ((65 <=? c) && (c <=? 90)
      || (192 <=? c) && (c <=? 222) && negb (c =? 215))%N
  then [(c + 32)%N]
  else if (c =? 304)%N then [105%N; 775%N]
  else [c].

Definition python_sample : runtime :=
  {| isspace := isspace_below_256;
     lower := λ s, concat (lower_char <$> s) |}.

End Text.

(** ** Indices that fit 64 bits *)

(** Torch converts an index to a 64-bit integer before it looks at the
    table; [Tensor.norm_index] describes what happens to the indices
    that survive this conversion. *)
Definition int64 (v : Z) : Prop := - 2 ^ 63 ≤ v < 2 ^ 63.

Definition indices_int64 (d : dict string Z) : Prop :=
  Forall (λ kv, int64 kv.2) d.

(** ** Vocabulary of the further statements *)

(** The index addresses a position of a dimension of extent [n], from the
    front or, when negative, from the end. *)
Definition index_fits (n : nat) (v : Z) : bool :=
  bool_decide (- Z.of_nat n ≤ v < Z.of_nat n).

(** Both characters of the bigram are keys of the mapping and one of the
    two indices is outside the table of size [len(mapping)]. *)
Definition misses_table (d : dict string Z) (bg : bigram) : bool :=
  match dict_get d bg.1, dict_get d bg.2 with
  | Some v1, Some v2 =>
      negb (index_fits (dict_len d) v1 && index_fits (dict_len d) v2)
  | _, _ => false
  end.

(** The row or column a Python index addresses in extent [n], if any. *)
Definition position (n : nat) (v : Z) : option nat :=
  match Tensor.norm_index n v with
  | Ok r => Some r
  | Raise _ => None
  end.

(** The cell a bigram is counted in, if it is counted. *)
Definition target (d : dict string Z) (bg : bigram) : option (nat * nat) :=
  v1 ← dict_get d bg.1;
  v2 ← dict_get d bg.2;
  i ← position (dict_len d) v1;
  j ← position (dict_len d) v2;
  Some (i, j).

(** How many bigrams of the list are counted in cell [(i, j)]. *)
Definition hit_count (d : dict string Z) (i j : nat) (bgs : list bigram) : nat :=
  length (List.filter (λ bg, bool_decide (target d bg = Some (i, j))) bgs).

(** The last position of [c] in [l]. *)
Fixpoint last_index (l : list string) (c : string) : option nat :=
  match l with
  | [] => None
  | x :: l' =>
      match last_index l' c with
      | Some k => Some (S k)
      | None => if decide (x = c) then Some 0%nat else None
      end
  end.

(** The index of a character, read off the order of the assignments: the
    end token is assigned last, the alphabet before it, the start token
    first. *)
Definition assigned_index (alphabet start_token end_token c : string)
  : option Z :=
  if decide (c = end_token) then Some (Z.of_nat (String.length alphabet) + 1)
  else match last_index (Str.chars alphabet) c with
       | Some k => Some (Z.of_nat k + 1)
       | None => if decide (c = start_token) then Some 0 else None
       end.

(** A string without whitespace characters. *)
Definition whitespace_free (s : string) : Prop :=
  Forall (λ c, Str.isspace c = false) (list_ascii_of_string s).

(** The two texts drawn for cell [(i, j)] when the symbols are [syms]. *)
Definition annotations (t : Tensor.tensor) (syms : list string) (i j : nat)
  : list Plot.call :=
  [Plot.Text j i
     (Plot.LStr (default "" (syms !! i) +:+ default "" (syms !! j)))
     "center" "bottom" "gray";
   Plot.Text j i (Plot.LInt (default 0 (Tensor.cell t i j)))
     "center" "top" "gray"].

(** * Properties *)

(** ** The scenarios of the specification *)

Example anna_bigrams :
  load_and_preprocess_data ["Anna 5 3"] "-" "." =
  Ok [("-","a"); ("a","n"); ("n","n"); ("n","a"); ("a",".")].
Proof. reflexivity. Qed.

Example small_vocab :
  char_to_index "ab" "-" "." = [("-", 0); ("a", 1); ("b", 2); (".", 3)].
Proof. reflexivity. Qed.

Example small_inverse :
  index_to_char (char_to_index "ab" "-" ".")
  = [(0, "-"); (1, "a"); (2, "b"); (3, ".")].
Proof. reflexivity. Qed.

Example anna_scenario :
  ∃ t, pipeline ["Anna 5 3"] "abcdefghijklmnopqrstuvwxyz" "-" "." = Ok t
       ∧ Tensor.sum t = 5
       ∧ Tensor.cell t 0 1 = Some 1 ∧ Tensor.cell t 1 14 = Some 1
       ∧ Tensor.cell t 14 14 = Some 1 ∧ Tensor.cell t 14 1 = Some 1
       ∧ Tensor.cell t 1 27 = Some 1.
Proof. eexists. split; [vm_compute; reflexivity|]. repeat split. Qed.

Example small_counts :
  count_bigrams [("-","a"); ("a","b"); ("a","b"); ("b","."); ("z", "a")]
                (char_to_index "ab" "-" ".")
  = Ok [[0; 1; 0; 0]; [0; 0; 2; 0]; [0; 0; 0; 1]; [0; 0; 0; 0]].
Proof. reflexivity. Qed.

(** ** The result monad *)

Lemma comprehension_map {A B} (f : A → result B) (g : A → B) (xs : list A) :
  (∀ x, x ∈ xs → f x = Ok (g x)) → comprehension f xs = Ok (g <$> xs).
Proof.
  induction xs as [|x xs IH]; intros Hf; [done|].
  cbn. rewrite (Hf x) by left. cbn.
  rewrite IH; [done|]. intros y Hy. apply Hf. by right.
Qed.

(** ** Strings *)

Lemma length_chars (s : string) : length (Str.chars s) = String.length s.
Proof. induction s as [|c s IH]; cbn; [done|]. by rewrite IH. Qed.

Lemma lookup_chars (s : string) (i : nat) :
  Str.chars s !! i = Str.char <$> String.get i s.
Proof.
  revert i. induction s as [|c s IH]; intros [|i]; cbn; done.
Qed.

Lemma getitem_chars (s : string) (i : nat) (x : string) :
  Str.chars s !! i = Some x → Str.getitem s i = Ok x.
Proof.
  rewrite lookup_chars. unfold Str.getitem.
  destruct (String.get i s); cbn; congruence.
Qed.

Lemma str_app_cons (c : ascii) (s1 s2 : string) :
  String c s1 +:+ s2 = String c (s1 +:+ s2).
Proof. reflexivity. Qed.

Lemma str_app_assoc (s1 s2 s3 : string) :
  (s1 +:+ s2) +:+ s3 = s1 +:+ s2 +:+ s3.
Proof.
  induction s1 as [|c s1 IH]; [done|]. rewrite !str_app_cons. by f_equal.
Qed.

Lemma length_lower (s : string) : String.length (Str.lower s) = String.length s.
Proof. induction s as [|c s IH]; cbn; [done|]. by rewrite IH. Qed.

Lemma string_length_app (s1 s2 : string) :
  String.length (s1 +:+ s2) = (String.length s1 + String.length s2)%nat.
Proof.
  induction s1 as [|c s1 IH]; [done|]. rewrite str_app_cons. cbn. by f_equal.
Qed.

(** ** Bigram extraction *)

Lemma length_adjacent_pairs (cs : list string) :
  length (adjacent_pairs cs) = (length cs - 1)%nat.
Proof.
  unfold adjacent_pairs. rewrite length_zip_with.
  destruct cs as [|c cs]; [done|]. cbn [list.tail length]. lia.
Qed.

Lemma lookup_adjacent_pairs (cs : list string) (i : nat) (a b : string) :
  cs !! i = Some a → cs !! S i = Some b →
  adjacent_pairs cs !! i = Some (a, b).
Proof.
  intros Ha Hb. unfold adjacent_pairs.
  rewrite lookup_zip_with, lookup_tail, Ha, Hb. done.
Qed.

(** The comprehension of line 45 raises nothing and lists the neighbouring
    characters. *)
Lemma word_bigrams_ok (pw : string) :
  word_bigrams pw = Ok (adjacent_pairs (Str.chars pw)).
Proof.
  unfold word_bigrams.
  set (cs := Str.chars pw).
  set (g := λ i : nat, (default "" (cs !! i), default "" (cs !! (i + 1)%nat))).
  rewrite (comprehension_map _ g).
  - f_equal. apply list_eq. intros i.
    rewrite list_lookup_fmap, <- length_chars. fold cs.
    destruct (decide (i < length cs - 1)%nat) as [Hi|Hi].
    + rewrite lookup_seq_lt by done. cbn.
      destruct (lookup_lt_is_Some_2 cs i) as [a Ha]; [lia|].
      destruct (lookup_lt_is_Some_2 cs (S i)) as [b Hb]; [lia|].
      rewrite (lookup_adjacent_pairs cs i a b) by done.
      unfold g. replace (i + 1)%nat with (S i) by lia. by rewrite Ha, Hb.
    + rewrite lookup_seq_ge by lia. cbn. symmetry.
      apply lookup_ge_None. rewrite length_adjacent_pairs. lia.
  - intros i Hi. apply elem_of_seq in Hi. rewrite <- length_chars in Hi. fold cs in Hi.
    destruct (lookup_lt_is_Some_2 cs i) as [a Ha]; [lia|].
    destruct (lookup_lt_is_Some_2 cs (i + 1)) as [b Hb]; [lia|].
    rewrite (getitem_chars _ _ _ Ha). cbn.
    rewrite (getitem_chars _ _ _ Hb). cbn.
    unfold g. by rewrite Ha, Hb.
Qed.

Lemma load_loop_spec (lines : list string) (s e : string) (acc : list bigram) :
  load_loop lines s e acc = Ok (acc ++ concat (line_bigrams s e <$> lines)).
Proof.
  revert acc. induction lines as [|line lines IH]; intros acc; cbn.
  - by rewrite app_nil_r.
  - unfold line_bigrams at 1. destruct (Str.split line) as [|part0 parts].
    + apply IH.
    + rewrite word_bigrams_ok. cbn. rewrite IH. by rewrite <- app_assoc.
Qed.

(** The extractor never raises: its result is the concatenation of what
    each line adds. *)
Lemma load_spec (lines : list string) (s e : string) :
  load_and_preprocess_data lines s e = Ok (concat (line_bigrams s e <$> lines)).
Proof. apply load_loop_spec. Qed.

(** [split] yields nothing exactly on the lines made of whitespace. *)
Lemma split_from_nil (cur s : string) :
  Str.split_from cur s = [] ↔ cur = "" ∧ blank s.
Proof.
  unfold blank. revert cur. induction s as [|c s IH]; intros cur; cbn.
  - destruct (decide (cur = "")) as [->|Hcur].
    + split; [|done]. intros _. split; [done|constructor].
    + split; [done|]. by intros [? _].
  - destruct (Str.isspace c) eqn:Hc.
    + destruct (decide (cur = "")) as [->|Hcur].
      * rewrite IH. split.
        -- intros [_ Hs]. split; [done|]. by constructor.
        -- intros [_ Hs]. split; [done|]. by inversion Hs.
      * split; [done|]. by intros [? _].
    + rewrite IH. split.
      * intros [Hcur _]. destruct cur; discriminate.
      * intros [_ Hs]. inversion Hs; congruence.
Qed.

Lemma split_nil_iff_blank (line : string) : Str.split line = [] ↔ blank line.
Proof. unfold Str.split. rewrite split_from_nil. by split; [intros [_ ?]|]. Qed.

Lemma line_bigrams_blank (s e line : string) :
  Str.split line = [] → line_bigrams s e line = [].
Proof. unfold line_bigrams. by intros ->. Qed.

Lemma line_bigrams_word (s e line w : string) (rest : list string) :
  Str.split line = w :: rest →
  line_bigrams s e line = adjacent_pairs (Str.chars (s +:+ Str.lower w +:+ e)).
Proof. unfold line_bigrams. by intros ->. Qed.

(** C2, as the claim words it, fails: on the record ["Anna 5 3"] the first
    components of the bigrams spell ["-anna"], one character short of the
    padded word ["-anna."]. *)
Lemma firsts_miss_the_end_token :
  ∃ bgs : list bigram,
    load_and_preprocess_data ["Anna 5 3"] "-" "." = Ok bgs
    ∧ Str.join (bgs.*1) = "-anna"
    ∧ Str.join (bgs.*1) ≠ "-" +:+ Str.lower "Anna" +:+ ".".
Proof.
  eexists. split; [reflexivity|]. split; [reflexivity|]. discriminate.
Qed.


(** Dropping every record without tokens beforehand changes nothing. *)
Lemma load_filter_blank (lines : list string) (s e : string) :
  load_and_preprocess_data (filter (λ l, Str.split l ≠ []) lines) s e
  = load_and_preprocess_data lines s e.
Proof.
  rewrite !load_spec. f_equal.
  induction lines as [|line lines IH]; [done|].
  rewrite filter_cons. case_decide as Hline.
  - cbn. by rewrite IH.
  - cbn. rewrite IH. rewrite line_bigrams_blank; [done|].
    by destruct (Str.split line).
Qed.

(** C7.  A record without tokens (exactly the blank and whitespace-only
    lines) adds no bigram and raises nothing; the bigrams of the other
    records come out in input order, as if the record were not there, and
    so for any number of such records. *)
Theorem blank_records_skipped
    (before after : list string) (line start_token end_token : string) :
  Str.split line = [] →
  blank line
  ∧ load_and_preprocess_data [line] start_token end_token = Ok []
  ∧ load_and_preprocess_data (before ++ line :: after) start_token end_token
    = load_and_preprocess_data (before ++ after) start_token end_token
  ∧ (∃ b1 b2 : list bigram,
      load_and_preprocess_data before start_token end_token = Ok b1
      ∧ load_and_preprocess_data after start_token end_token = Ok b2
      ∧ load_and_preprocess_data (before ++ line :: after) start_token end_token
        = Ok (b1 ++ b2))
  ∧ ∀ lines : list string,
      load_and_preprocess_data lines start_token end_token
      = load_and_preprocess_data (filter (λ l, Str.split l ≠ []) lines)
          start_token end_token.
Proof.
  intros Hsplit. split; [by apply split_nil_iff_blank|].
  split; [|split; [|split]].
  - rewrite load_spec. cbn. by rewrite (line_bigrams_blank _ _ _ Hsplit).
  - rewrite !load_spec, !fmap_app, !concat_app. cbn.
    by rewrite (line_bigrams_blank _ _ _ Hsplit).
  - do 2 eexists. split; [apply load_spec|]. split; [apply load_spec|].
    rewrite !load_spec, !fmap_app, !concat_app. cbn.
    by rewrite (line_bigrams_blank _ _ _ Hsplit).
  - intros lines. by rewrite load_filter_blank.
Qed.

Lemma blank_records_skipped_witness :
  Str.split "  " = []
  ∧ blank "  "
  ∧ load_and_preprocess_data ["  "] "-" "." = Ok []
  ∧ load_and_preprocess_data (["ab 1 2"] ++ "  " :: ["c 3 4"]) "-" "."
    = load_and_preprocess_data (["ab 1 2"] ++ ["c 3 4"]) "-" "."
  ∧ (∃ b1 b2 : list bigram,
      load_and_preprocess_data ["ab 1 2"] "-" "." = Ok b1
      ∧ load_and_preprocess_data ["c 3 4"] "-" "." = Ok b2
      ∧ load_and_preprocess_data (["ab 1 2"] ++ "  " :: ["c 3 4"]) "-" "."
        = Ok (b1 ++ b2))
  ∧ ∀ lines : list string,
      load_and_preprocess_data lines "-" "."
      = load_and_preprocess_data (filter (λ l, Str.split l ≠ []) lines) "-" ".".
Proof.
  split; [reflexivity|].
  apply (blank_records_skipped ["ab 1 2"] ["c 3 4"] "  " "-" "."). reflexivity.
Defined.

(** ** Dictionaries *)

Section DictFacts.
Context {K V : Type} `{EqDecision K}.
Implicit Types (d : dict K V) (k : K) (v : V).

Lemma dict_get_Some_elem d k v : dict_get d k = Some v → (k, v) ∈ d.
Proof.
  induction d as [|[k' v'] d IH]; cbn; [done|].
  destruct (decide (k = k')) as [->|Hne].
  - intros [= ->]. left.
  - intros Hd. right. by apply IH.
Qed.

Lemma dict_get_None d k : dict_get d k = None ↔ k ∉ d.*1.
Proof.
  induction d as [|[k' v'] d IH]; cbn.
  - split; [|done]. intros _ Hin. inversion Hin.
  - rewrite not_elem_of_cons. destruct (decide (k = k')) as [->|Hne].
    + split; [done|]. by intros [? _].
    + rewrite IH. split; [done|]. by intros [_ ?].
Qed.

Lemma dict_get_elem_NoDup d k v :
  NoDup d.*1 → (k, v) ∈ d → dict_get d k = Some v.
Proof.
  induction d as [|[k' v'] d IH]; cbn; intros Hnd Hin.
  - inversion Hin.
  - apply NoDup_cons in Hnd as [Hk' Hnd].
    apply elem_of_cons in Hin as [[= -> ->]|Hin].
    + by rewrite decide_True.
    + rewrite decide_False; [by apply IH|].
      intros ->. apply Hk'. apply list_elem_of_fmap. by exists (k', v).
Qed.

Lemma dict_get_set d k k' v :
  dict_get (dict_set d k v) k'
  = if decide (k' = k) then Some v else dict_get d k'.
Proof.
  induction d as [|[k0 v0] d IH]; cbn.
  - done.
  - destruct (decide (k = k0)) as [->|Hne]; cbn.
    + by destruct (decide (k' = k0)).
    + destruct (decide (k' = k0)) as [->|Hne'].
      * by rewrite decide_False by done.
      * apply IH.
Qed.

Lemma dict_set_fresh d k v : k ∉ d.*1 → dict_set d k v = d ++ [(k, v)].
Proof.
  induction d as [|[k0 v0] d IH]; cbn; [done|].
  rewrite not_elem_of_cons. intros [Hne Hk].
  rewrite decide_False by done. by rewrite IH.
Qed.

Lemma dict_keys_set_present d k v : k ∈ d.*1 → (dict_set d k v).*1 = d.*1.
Proof.
  induction d as [|[k0 v0] d IH]; cbn; intros Hin; [inversion Hin|].
  destruct (decide (k = k0)) as [->|Hne]; cbn; [done|].
  f_equal. apply IH. apply elem_of_cons in Hin as [?|?]; done.
Qed.

Lemma dict_keys_set d k v :
  (dict_set d k v).*1 = if decide (k ∈ d.*1) then d.*1 else d.*1 ++ [k].
Proof.
  destruct (decide (k ∈ d.*1)) as [Hin|Hnin].
  - by apply dict_keys_set_present.
  - rewrite dict_set_fresh by done. by rewrite fmap_app.
Qed.

Lemma dict_set_NoDup d k v : NoDup d.*1 → NoDup (dict_set d k v).*1.
Proof.
  intros Hnd. rewrite dict_keys_set. case_decide; [done|].
  apply NoDup_app. split; [done|]. split; [|apply NoDup_singleton].
  intros x Hx Hx'. apply list_elem_of_singleton in Hx'. by subst.
Qed.

Lemma dict_set_keys_elem d k v k' :
  k' ∈ (dict_set d k v).*1 ↔ k' = k ∨ k' ∈ d.*1.
Proof.
  rewrite dict_keys_set. case_decide as Hin.
  - split; [by right|]. by intros [->|?].
  - rewrite elem_of_app, list_elem_of_singleton. tauto.
Qed.

(** *** A run of assignments *)

Lemma dict_assign_each_cons (a : V) (b : K) (xs : list (V * K)) d :
  dict_assign_each ((a, b) :: xs) d = dict_assign_each xs (dict_set d b a).
Proof. reflexivity. Qed.

Lemma dict_assign_each_app (xs ys : list (V * K)) d :
  dict_assign_each (xs ++ ys) d = dict_assign_each ys (dict_assign_each xs d).
Proof. apply fold_left_app. Qed.

Lemma dict_assign_each_NoDup (xs : list (V * K)) d :
  NoDup d.*1 → NoDup (dict_assign_each xs d).*1.
Proof.
  revert d. induction xs as [|[a b] xs IH]; intros d Hnd; [done|].
  rewrite dict_assign_each_cons. apply IH. by apply dict_set_NoDup.
Qed.

Lemma dict_assign_each_keys (xs : list (V * K)) d k :
  k ∈ (dict_assign_each xs d).*1 ↔ k ∈ d.*1 ∨ k ∈ xs.*2.
Proof.
  revert d. induction xs as [|[a b] xs IH]; intros d.
  - cbn. split; [by left|]. intros [?|Hin]; [done|inversion Hin].
  - rewrite dict_assign_each_cons, IH, dict_set_keys_elem.
    cbn. rewrite elem_of_cons. tauto.
Qed.

(** A key no assignment mentions keeps its value. *)
Lemma dict_assign_each_get_other (xs : list (V * K)) d k :
  k ∉ xs.*2 → dict_get (dict_assign_each xs d) k = dict_get d k.
Proof.
  revert d. induction xs as [|[a b] xs IH]; intros d; [done|].
  cbn [fmap list_fmap snd]. rewrite not_elem_of_cons. intros [Hne Hk].
  rewrite dict_assign_each_cons, IH by done.
  rewrite dict_get_set. by rewrite decide_False.
Qed.

(** The last assignment to a key decides its value. *)
Lemma dict_assign_each_get_last (xs ys : list (V * K)) (a : V) (b : K) d :
  b ∉ ys.*2 → dict_get (dict_assign_each (xs ++ (a, b) :: ys) d) b = Some a.
Proof.
  intros Hb. rewrite dict_assign_each_app, dict_assign_each_cons.
  rewrite dict_assign_each_get_other by done.
  rewrite dict_get_set. by rewrite decide_True.
Qed.

(** Assignments to pairwise different new keys append in order. *)
Lemma dict_assign_each_fresh (xs : list (V * K)) d :
  NoDup (d.*1 ++ xs.*2) → dict_assign_each xs d = d ++ (prod_swap <$> xs).
Proof.
  revert d. induction xs as [|[a b] xs IH]; intros d Hnd.
  - cbn. by rewrite app_nil_r.
  - rewrite dict_assign_each_cons. cbn [fmap list_fmap snd] in Hnd.
    assert (b ∉ d.*1) as Hb.
    { apply NoDup_app in Hnd as (_ & Hd & _). intros Hin.
      apply (Hd b Hin). left. }
    rewrite dict_set_fresh by done. rewrite IH.
    + by rewrite <- app_assoc.
    + rewrite fmap_app. cbn. by rewrite <- app_assoc.
Qed.

End DictFacts.

(** ** The vocabulary *)

Lemma enumerate_snd (a : string) (start : Z) :
  (Str.enumerate a start).*2 = Str.chars a.
Proof.
  revert start. induction a as [|c a IH]; intros start; cbn; [done|].
  by rewrite IH.
Qed.

Lemma enumerate_fst (a : string) (start : Z) :
  (Str.enumerate a start).*1 = seqZ start (Z.of_nat (String.length a)).
Proof.
  revert start. induction a as [|c a IH]; intros start; [done|].
  cbn [Str.enumerate fmap list_fmap fst String.length].
  rewrite seqZ_cons by lia. f_equal.
  rewrite IH. f_equal; lia.
Qed.

Lemma length_enumerate (a : string) (start : Z) :
  length (Str.enumerate a start) = String.length a.
Proof. by rewrite <- (length_fmap snd), enumerate_snd, length_chars. Qed.

Lemma lookup_enumerate (a : string) (start : Z) (k : nat) (c : string) :
  Str.chars a !! k = Some c →
  Str.enumerate a start !! k = Some (start + Z.of_nat k, c).
Proof.
  intros Hc.
  destruct (Str.enumerate a start !! k) as [[i c']|] eqn:E.
  - assert ((Str.enumerate a start).*2 !! k = Some c') as H2
      by (by rewrite list_lookup_fmap, E).
    assert ((Str.enumerate a start).*1 !! k = Some i) as H1
      by (by rewrite list_lookup_fmap, E).
    rewrite enumerate_snd in H2. rewrite enumerate_fst in H1.
    apply lookup_seqZ in H1 as [-> _]. congruence.
  - apply lookup_ge_None in E. rewrite length_enumerate, <- length_chars in E.
    apply lookup_lt_Some in Hc. lia.
Qed.

Lemma valid_vocab_symbols (a s e : string) :
  valid_vocab a s e ↔ NoDup (symbols a s e).
Proof.
  unfold valid_vocab, symbols.
  rewrite NoDup_cons, NoDup_app, not_elem_of_app, list_elem_of_singleton.
  split.
  - intros (Ha & Hs & He & Hse). repeat split; try done.
    + intros x Hx ->%list_elem_of_singleton. done.
    + apply NoDup_singleton.
  - intros ((Hs & Hse) & Ha & He & _). repeat split; try done.
    intros Hin. apply (He e Hin). by apply list_elem_of_singleton.
Qed.

(** The last position at which an element occurs. *)
Lemma last_occurrence (l : list string) (c : string) :
  c ∈ l → ∃ k, l !! k = Some c ∧ c ∉ drop (S k) l.
Proof.
  induction l as [|x l IH]; intros Hin; [inversion Hin|].
  destruct (decide (c ∈ l)) as [Hl|Hl].
  - destruct (IH Hl) as (k & Hk & Hlast). by exists (S k).
  - apply elem_of_cons in Hin as [->|?]; [|done].
    exists 0%nat. split; [done|]. cbn. by rewrite drop_0.
Qed.

(** Every key of the mapping is one of the assigned symbols, once. *)
Lemma char_to_index_keys (a s e c : string) :
  c ∈ dict_keys (char_to_index a s e) ↔ c ∈ symbols a s e.
Proof.
  unfold dict_keys, char_to_index, symbols.
  rewrite dict_set_keys_elem, dict_assign_each_keys, enumerate_snd.
  cbn. rewrite !elem_of_cons, elem_of_app, list_elem_of_singleton, elem_of_nil. tauto.
Qed.

Lemma char_to_index_NoDup (a s e : string) :
  NoDup (dict_keys (char_to_index a s e)).
Proof.
  unfold dict_keys, char_to_index.
  apply dict_set_NoDup, dict_assign_each_NoDup. cbn. apply NoDup_singleton.
Qed.

(** The end token is assigned last, so its index stands whatever the
    alphabet and the start token are. *)
Lemma char_to_index_end (a s e : string) :
  dict_get (char_to_index a s e) e = Some (Z.of_nat (String.length a) + 1).
Proof. unfold char_to_index. rewrite dict_get_set. by rewrite decide_True. Qed.

(** An alphabet character other than the end token has the index of its
    last occurrence. *)
Lemma char_to_index_alphabet (a s e c : string) (k : nat) :
  Str.chars a !! k = Some c → c ∉ drop (S k) (Str.chars a) → c ≠ e →
  dict_get (char_to_index a s e) c = Some (Z.of_nat k + 1).
Proof.
  intros Hk Hlast Hce. unfold char_to_index.
  rewrite dict_get_set, decide_False by done.
  pose proof (lookup_enumerate a 1 k c Hk) as Hen.
  rewrite <- (take_drop_middle _ _ _ Hen).
  rewrite dict_assign_each_get_last; [f_equal; lia|].
  by rewrite fmap_drop, enumerate_snd.
Qed.

(** In a valid configuration no assignment overwrites another: the mapping
    lists the symbols in order with the indices 0, 1, 2, ... *)
Lemma char_to_index_valid (a s e : string) :
  valid_vocab a s e →
  char_to_index a s e
  = (s, 0) :: (prod_swap <$> Str.enumerate a 1)
    ++ [(e, Z.of_nat (String.length a) + 1)].
Proof.
  intros Hv%valid_vocab_symbols. unfold symbols in Hv. unfold char_to_index.
  change (dict_set [] s 0) with [(s, 0)].
  rewrite dict_assign_each_fresh.
  - rewrite dict_set_fresh; [done|].
    cbn. rewrite <- list_fmap_compose.
    change (fst ∘ prod_swap) with (@snd Z string).
    rewrite enumerate_snd.
    apply NoDup_cons in Hv as [Hs Hv]. rewrite not_elem_of_cons. split.
    + intros ->. apply Hs. apply elem_of_app. right. by apply list_elem_of_singleton.
    + apply NoDup_app in Hv as (_ & Hd & _). intros Hin.
      apply (Hd e Hin). by apply list_elem_of_singleton.
  - cbn. rewrite enumerate_snd. rewrite app_comm_cons in Hv.
    by apply NoDup_app in Hv as (? & _ & _).
Qed.

Lemma char_to_index_valid_values (a s e : string) :
  valid_vocab a s e →
  dict_values (char_to_index a s e)
  = seqZ 0 (Z.of_nat (String.length a) + 2).
Proof.
  intros Hv. rewrite (char_to_index_valid _ _ _ Hv). unfold dict_values.
  cbn. rewrite fmap_app, <- list_fmap_compose.
  change (snd ∘ prod_swap) with (@fst Z string).
  rewrite enumerate_fst. cbn.
  rewrite (seqZ_cons 0) by lia.
  replace (Z.pred (Z.of_nat (String.length a) + 2))
    with (Z.of_nat (String.length a) + 1) by lia.
  rewrite seqZ_app by lia.
  change (seqZ (Z.succ 0 + Z.of_nat (String.length a)) 1)
    with [0 + (Z.succ 0 + Z.of_nat (String.length a))].
  f_equal. f_equal. f_equal. lia.
Qed.

Lemma char_to_index_valid_len (a s e : string) :
  valid_vocab a s e →
  dict_len (char_to_index a s e) = (String.length a + 2)%nat.
Proof.
  intros Hv. unfold dict_len.
  rewrite <- (length_fmap snd). fold (dict_values (char_to_index a s e)).
  rewrite (char_to_index_valid_values _ _ _ Hv), length_seqZ. lia.
Qed.

Lemma char_to_index_valid_start (a s e : string) :
  valid_vocab a s e → dict_get (char_to_index a s e) s = Some 0.
Proof.
  intros Hv. apply dict_get_elem_NoDup; [apply char_to_index_NoDup|].
  rewrite (char_to_index_valid _ _ _ Hv). left.
Qed.

Lemma char_to_index_valid_kth (a s e c : string) (k : nat) :
  valid_vocab a s e → Str.chars a !! k = Some c →
  dict_get (char_to_index a s e) c = Some (Z.of_nat k + 1).
Proof.
  intros (Ha & _ & He & _) Hk. apply char_to_index_alphabet; [done| |].
  - intros Hin. apply list_elem_of_lookup in Hin as [j Hj].
    rewrite lookup_drop in Hj.
    pose proof (NoDup_lookup _ _ _ _ Ha Hk Hj). lia.
  - intros ->. apply He. by eapply list_elem_of_lookup_2.
Qed.

(** The indices in use are exactly the numbers below [len(alphabet) + 2]. *)
Lemma char_to_index_valid_cover (a s e : string) (i : Z) :
  valid_vocab a s e →
  (∃ c, dict_get (char_to_index a s e) c = Some i)
  ↔ 0 ≤ i < Z.of_nat (String.length a + 2).
Proof.
  intros Hv. transitivity (i ∈ dict_values (char_to_index a s e)).
  - unfold dict_values. rewrite list_elem_of_fmap. split.
    + intros [c Hc]. exists (c, i). split; [done|].
      by apply dict_get_Some_elem.
    + intros [[c i'] [-> Hin]]. exists c.
      apply dict_get_elem_NoDup; [apply char_to_index_NoDup|done].
  - rewrite (char_to_index_valid_values _ _ _ Hv), elem_of_seqZ. lia.
Qed.

(** C3 (as amended).  In a valid configuration the start token has index 0,
    the k-th alphabet character index [k + 1], the end token index
    [len(alphabet) + 1], and the mapping has [len(alphabet) + 2] entries
    whose indices are exactly the numbers of [[0, len(alphabet) + 2)]. *)
Theorem char_to_index_layout (alphabet start_token end_token : string) :
  valid_vocab alphabet start_token end_token →
  let d := char_to_index alphabet start_token end_token in
  dict_get d start_token = Some 0
  ∧ (∀ k c, Str.chars alphabet !! k = Some c →
       dict_get d c = Some (Z.of_nat k + 1))
  ∧ dict_get d end_token = Some (Z.of_nat (String.length alphabet) + 1)
  ∧ dict_len d = (String.length alphabet + 2)%nat
  ∧ (∀ i, (∃ c, dict_get d c = Some i)
          ↔ 0 ≤ i < Z.of_nat (String.length alphabet + 2)).
Proof.
  intros Hv d. unfold d.
  split; [by apply char_to_index_valid_start|].
  split; [intros k c Hk; by apply char_to_index_valid_kth|].
  split; [apply char_to_index_end|].
  split; [by apply char_to_index_valid_len|].
  intros i. by apply char_to_index_valid_cover.
Qed.

Lemma char_to_index_layout_witness :
  valid_vocab "ab" "-" "."
  ∧ let d := char_to_index "ab" "-" "." in
    dict_get d "-" = Some 0
    ∧ (∀ k c, Str.chars "ab" !! k = Some c →
         dict_get d c = Some (Z.of_nat k + 1))
    ∧ dict_get d "." = Some (Z.of_nat (String.length "ab") + 1)
    ∧ dict_len d = (String.length "ab" + 2)%nat
    ∧ (∀ i, (∃ c, dict_get d c = Some i)
            ↔ 0 ≤ i < Z.of_nat (String.length "ab" + 2)).
Proof.
  split.
  - unfold valid_vocab. compute_done.
  - apply (char_to_index_layout "ab" "-" ".").
    unfold valid_vocab. compute_done.
Defined.

(** C3, as the claim words it for every alphabet and sentinel pair, fails:
    with the start token inside the alphabet the start token does not end
    at index 0, and with a repeated character the first occurrence does not
    decide the index. *)
Lemma start_token_in_alphabet_not_zero :
  dict_get (char_to_index "a-" "-" ".") "-" = Some 2
  ∧ dict_get (char_to_index "a-" "-" ".") "-" ≠ Some 0
  ∧ Str.chars "aa" !! 0%nat = Some "a"
  ∧ dict_get (char_to_index "aa" "-" ".") "a" ≠ Some (Z.of_nat 0 + 1).
Proof. repeat split; try reflexivity; discriminate. Qed.

(** ** The reverse mapping *)

(** Where no two characters share an index, [index_to_char] turns every
    entry around and keeps the order. *)
Lemma index_to_char_swap (d : dict string Z) :
  NoDup (dict_values d) → index_to_char d = prod_swap <$> d.
Proof.
  intros Hnd. unfold index_to_char, dict_items.
  by rewrite dict_assign_each_fresh.
Qed.

Lemma elem_of_swap (d : dict string Z) (c : string) (i : Z) :
  (i, c) ∈ prod_swap <$> d ↔ (c, i) ∈ d.
Proof.
  rewrite list_elem_of_fmap. split.
  - by intros [[c' i'] [[= -> ->] Hin]].
  - intros Hin. by exists (c, i).
Qed.

Lemma swap_keys (d : dict string Z) : (prod_swap <$> d).*1 = dict_values d.
Proof. unfold dict_values. by rewrite <- list_fmap_compose. Qed.

(** With distinct keys and distinct indices the two mappings are inverse
    to each other. *)
Lemma index_to_char_inverse (d : dict string Z) (c : string) (i : Z) :
  NoDup (dict_keys d) → NoDup (dict_values d) →
  dict_get (index_to_char d) i = Some c ↔ dict_get d c = Some i.
Proof.
  intros Hk Hv. rewrite (index_to_char_swap d Hv). split.
  - intros Hi%dict_get_Some_elem. apply elem_of_swap in Hi.
    by apply dict_get_elem_NoDup.
  - intros Hc%dict_get_Some_elem. apply dict_get_elem_NoDup.
    + by rewrite swap_keys.
    + by apply elem_of_swap.
Qed.

(** C4.  In a valid configuration [index_to_char] inverts [char_to_index]:
    every symbol has an index that leads back to it, no two symbols share
    an index, and every index of [[0, len(alphabet) + 2)] leads to a symbol
    that has this index. *)
Theorem vocabulary_bijection (alphabet start_token end_token : string) :
  valid_vocab alphabet start_token end_token →
  let c2i := char_to_index alphabet start_token end_token in
  let i2c := index_to_char c2i in
  (∀ c, c ∈ symbols alphabet start_token end_token →
     ∃ i, dict_get c2i c = Some i ∧ dict_get i2c i = Some c)
  ∧ (∀ c1 c2 i, dict_get c2i c1 = Some i → dict_get c2i c2 = Some i → c1 = c2)
  ∧ (∀ i, 0 ≤ i < Z.of_nat (String.length alphabet + 2) →
       ∃ c, dict_get i2c i = Some c ∧ dict_get c2i c = Some i)
  ∧ dict_len i2c = (String.length alphabet + 2)%nat.
Proof.
  intros Hv c2i i2c.
  assert (Hk : NoDup (dict_keys c2i)) by apply char_to_index_NoDup.
  assert (Hvals : NoDup (dict_values c2i)).
  { unfold c2i. rewrite (char_to_index_valid_values _ _ _ Hv). apply NoDup_seqZ. }
  assert (Hinv : ∀ c i, dict_get i2c i = Some c ↔ dict_get c2i c = Some i).
  { intros c i. by apply index_to_char_inverse. }
  split; [|split; [|split]].
  - intros c Hc. apply char_to_index_keys in Hc. fold c2i in Hc.
    destruct (dict_get c2i c) as [i|] eqn:E.
    + exists i. split; [done|]. by apply Hinv.
    + by apply dict_get_None in E.
  - intros c1 c2 i H1%Hinv H2%Hinv. congruence.
  - intros i Hi.
    apply (char_to_index_valid_cover _ _ _ _ Hv) in Hi as [c Hc].
    exists c. split; [by apply Hinv|done].
  - unfold i2c. rewrite (index_to_char_swap _ Hvals).
    unfold dict_len. rewrite length_fmap. by apply char_to_index_valid_len.
Qed.

Lemma vocabulary_bijection_witness :
  valid_vocab "ab" "-" "."
  ∧ let c2i := char_to_index "ab" "-" "." in
    let i2c := index_to_char c2i in
    (∀ c, c ∈ symbols "ab" "-" "." →
       ∃ i, dict_get c2i c = Some i ∧ dict_get i2c i = Some c)
    ∧ (∀ c1 c2 i, dict_get c2i c1 = Some i → dict_get c2i c2 = Some i → c1 = c2)
    ∧ (∀ i, 0 ≤ i < Z.of_nat (String.length "ab" + 2) →
         ∃ c, dict_get i2c i = Some c ∧ dict_get c2i c = Some i)
    ∧ dict_len i2c = (String.length "ab" + 2)%nat.
Proof.
  split.
  - unfold valid_vocab. compute_done.
  - apply (vocabulary_bijection "ab" "-" ".").
    unfold valid_vocab. compute_done.
Defined.

(** ** Collisions *)

(** A duplicate-free list drawn from a list with a repetition is shorter. *)
Lemma NoDup_subseteq_length_lt (l k : list string) :
  NoDup l → (∀ x, x ∈ l → x ∈ k) → ¬ NoDup k → (length l < length k)%nat.
Proof.
  intros Hl Hsub Hk.
  pose proof (NoDup_submseteq _ _ Hl Hsub) as Hms.
  pose proof (submseteq_length _ _ Hms) as Hle.
  destruct (decide (length k ≤ length l)%nat) as [Hge|]; [|lia].
  exfalso. apply Hk.
  by rewrite <- (submseteq_length_Permutation _ _ Hms Hge).
Qed.

(** C6.  When an alphabet character equals a sentinel, [char_to_index]
    returns a mapping all the same; the character has one entry, holding
    the index assigned last (that of the end token if it is the end token,
    that of its last place in the alphabet otherwise, never the 0 assigned
    first), and the mapping has fewer than [len(alphabet) + 2] entries. *)
Theorem sentinel_in_alphabet_overwritten
    (alphabet start_token end_token c : string) :
  c ∈ Str.chars alphabet →
  c = start_token ∨ c = end_token →
  let d := char_to_index alphabet start_token end_token in
  NoDup (dict_keys d)
  ∧ (dict_len d < String.length alphabet + 2)%nat
  ∧ (c = end_token →
     dict_get d c = Some (Z.of_nat (String.length alphabet) + 1))
  ∧ (c ≠ end_token →
     ∃ k, Str.chars alphabet !! k = Some c
          ∧ (c ∉ drop (S k) (Str.chars alphabet))
          ∧ dict_get d c = Some (Z.of_nat k + 1)
          ∧ dict_get d c ≠ Some 0).
Proof.
  intros Hin Hc d.
  assert (Hk : NoDup (dict_keys d)) by apply char_to_index_NoDup.
  split; [done|]. split; [|split].
  - unfold dict_len. rewrite <- (length_fmap fst). fold (dict_keys d).
    replace (String.length alphabet + 2)%nat
      with (length (symbols alphabet start_token end_token)).
    2:{ unfold symbols. cbn. rewrite length_app, length_chars. cbn. lia. }
    apply NoDup_subseteq_length_lt; [done| |].
    + intros x. apply char_to_index_keys.
    + rewrite <- valid_vocab_symbols. intros (_ & Hs & He & _).
      destruct Hc as [<-|<-]; done.
  - intros ->. apply char_to_index_end.
  - intros Hce. destruct (last_occurrence _ _ Hin) as (k & Hk1 & Hk2).
    exists k. split; [done|]. split; [done|].
    unfold d. rewrite (char_to_index_alphabet _ _ _ _ _ Hk1 Hk2 Hce).
    split; [done|]. intros [= ?]. lia.
Qed.

Lemma sentinel_in_alphabet_overwritten_witness :
  "-" ∈ Str.chars "a-b"
  ∧ ("-" = "-" ∨ "-" = ".")
  ∧ let d := char_to_index "a-b" "-" "." in
    NoDup (dict_keys d)
    ∧ (dict_len d < String.length "a-b" + 2)%nat
    ∧ ("-" = "." → dict_get d "-" = Some (Z.of_nat (String.length "a-b") + 1))
    ∧ ("-" ≠ "." →
       ∃ k, Str.chars "a-b" !! k = Some "-"
            ∧ ("-" ∉ drop (S k) (Str.chars "a-b"))
            ∧ dict_get d "-" = Some (Z.of_nat k + 1)
            ∧ dict_get d "-" ≠ Some 0).
Proof.
  split; [compute_done|]. split; [by left|].
  apply (sentinel_in_alphabet_overwritten "a-b" "-" "." "-").
  - compute_done.
  - by left.
Defined.

(** ** Tensors *)

Lemma wrap32_small (z : Z) : - 2 ^ 31 ≤ z < 2 ^ 31 → Tensor.wrap32 z = z.
Proof. intros Hz. unfold Tensor.wrap32. rewrite Z.mod_small; lia. Qed.

Lemma wrap32_succ (z : Z) :
  Tensor.wrap32 (Tensor.wrap32 z + 1) = Tensor.wrap32 (z + 1).
Proof.
  unfold Tensor.wrap32. f_equal.
  replace ((z + 2 ^ 31) mod 2 ^ 32 - 2 ^ 31 + 1 + 2 ^ 31)
    with ((z + 2 ^ 31) mod 2 ^ 32 + 1) by lia.
  rewrite Zplus_mod_idemp_l. f_equal. lia.
Qed.

Lemma zeros_shape (r c : nat) : Tensor.has_shape (Tensor.zeros r c) r c.
Proof.
  unfold Tensor.has_shape, Tensor.zeros. split.
  - apply length_replicate.
  - apply Forall_replicate. apply length_replicate.
Qed.

Lemma cell_zeros (r c i j : nat) :
  (i < r)%nat → (j < c)%nat → Tensor.cell (Tensor.zeros r c) i j = Some 0.
Proof.
  intros Hi Hj. unfold Tensor.cell, Tensor.zeros.
  rewrite lookup_replicate_2 by done. cbn. by apply lookup_replicate_2.
Qed.

Lemma sum_row_zeros (c : nat) : Tensor.sum_row (replicate c 0) = 0.
Proof. induction c as [|c IH]; cbn; [done|]. apply IH. Qed.

Lemma sum_zeros (r c : nat) : Tensor.sum (Tensor.zeros r c) = 0.
Proof.
  unfold Tensor.zeros. induction r as [|r IH]; cbn; [done|].
  rewrite sum_row_zeros. apply IH.
Qed.

Lemma norm_index_nat (size i : nat) :
  (i < size)%nat → Tensor.norm_index size (Z.of_nat i) = Ok i.
Proof.
  intros Hi. unfold Tensor.norm_index.
  rewrite decide_True by lia. by rewrite Nat2Z.id.
Qed.

Lemma sum_row_insert (row : list Z) (j : nat) (x v : Z) :
  row !! j = Some x →
  Tensor.sum_row (<[j := v]> row) = Tensor.sum_row row - x + v.
Proof.
  unfold Tensor.sum_row.
  revert j. induction row as [|y row IH]; intros [|j] Hj; try done.
  - injection Hj as ->. cbn. lia.
  - simpl in *. rewrite (IH _ Hj). lia.
Qed.

Lemma sum_insert (t : Tensor.tensor) (i : nat) (row row' : list Z) :
  t !! i = Some row →
  Tensor.sum (<[i := row']> t)
  = Tensor.sum t - Tensor.sum_row row + Tensor.sum_row row'.
Proof.
  unfold Tensor.sum.
  revert i. induction t as [|r t IH]; intros [|i] Hi; try done.
  - injection Hi as ->. cbn. lia.
  - simpl in *. rewrite (IH _ Hi). lia.
Qed.

(** The in-place increment at an in-range position: it succeeds, keeps the
    shape, replaces that one cell and moves the sum accordingly. *)
Lemma add_at_spec (t : Tensor.tensor) (r c i j : nat) (delta : Z) :
  Tensor.has_shape t r c → (i < r)%nat → (j < c)%nat →
  ∃ (x : Z) (t' : Tensor.tensor),
    Tensor.cell t i j = Some x
    ∧ Tensor.add_at t (Z.of_nat i) (Z.of_nat j) delta = Ok t'
    ∧ Tensor.has_shape t' r c
    ∧ Tensor.cell t' i j = Some (Tensor.wrap32 (x + delta))
    ∧ (∀ i' j', (i', j') ≠ (i, j) → Tensor.cell t' i' j' = Tensor.cell t i' j')
    ∧ Tensor.sum t' = Tensor.sum t - x + Tensor.wrap32 (x + delta).
Proof.
  intros [Hr Hc] Hi Hj.
  destruct (lookup_lt_is_Some_2 t i) as [row Hrow]; [lia|].
  assert (Hlen : length row = c).
  { eapply Forall_lookup_1 in Hc; [|exact Hrow]. done. }
  destruct (lookup_lt_is_Some_2 row j) as [x Hx]; [lia|].
  exists x, (<[i := <[j := Tensor.wrap32 (x + delta)]> row]> t).
  split; [|split; [|split; [|split; [|split]]]].
  - unfold Tensor.cell. rewrite Hrow. done.
  - unfold Tensor.add_at. rewrite norm_index_nat by lia. cbn.
    rewrite Hrow. rewrite norm_index_nat by lia. cbn. by rewrite Hx.
  - split.
    + by rewrite length_insert.
    + apply Forall_insert; [done|]. by rewrite length_insert.
  - unfold Tensor.cell. rewrite list_lookup_insert_eq by lia. cbn.
    apply list_lookup_insert_eq. lia.
  - intros i' j' Hne. unfold Tensor.cell.
    destruct (decide (i' = i)) as [->|Hi'].
    + rewrite list_lookup_insert_eq by lia. rewrite Hrow. cbn.
      apply list_lookup_insert_ne. congruence.
    + by rewrite list_lookup_insert_ne.
  - rewrite (sum_insert _ _ _ _ Hrow), (sum_row_insert _ _ _ _ Hx). lia.
Qed.

(** ** Counting *)

Lemma lands_on_in_vocab (d : dict string Z) (i j : nat) (bg : bigram) :
  lands_on d i j bg = true → in_vocab d bg = true.
Proof.
  unfold lands_on, in_vocab, dict_mem.
  intros [H1 H2]%bool_decide_eq_true. by rewrite H1, H2.
Qed.

Lemma occurrences_cons (d : dict string Z) (i j : nat) (bg : bigram)
    (bgs : list bigram) :
  occurrences d i j (bg :: bgs)
  = ((if lands_on d i j bg then 1 else 0) + occurrences d i j bgs)%nat.
Proof. unfold occurrences. cbn. by destruct (lands_on d i j bg). Qed.

Lemma in_vocab_count_cons (d : dict string Z) (bg : bigram) (bgs : list bigram) :
  in_vocab_count d (bg :: bgs)
  = ((if in_vocab d bg then 1 else 0) + in_vocab_count d bgs)%nat.
Proof. unfold in_vocab_count. cbn. by destruct (in_vocab d bg). Qed.

Lemma occurrences_le (d : dict string Z) (i j : nat) (bgs : list bigram) :
  (occurrences d i j bgs ≤ in_vocab_count d bgs)%nat.
Proof.
  induction bgs as [|bg bgs IH]; [done|].
  rewrite occurrences_cons, in_vocab_count_cons.
  destruct (lands_on d i j bg) eqn:E; [|lia].
  rewrite (lands_on_in_vocab _ _ _ _ E). lia.
Qed.

(** A bigram outside the vocabulary leaves the table as it is. *)
Lemma count_step_skip (d : dict string Z) (t : Tensor.tensor) (bg : bigram) :
  in_vocab d bg = false → count_step d t bg = Ok t.
Proof. destruct bg as [a b]. unfold in_vocab, count_step. cbn. by intros ->. Qed.

(** A bigram inside the vocabulary increments its cell, and only it. *)
Lemma count_step_hit (d : dict string Z) (t : Tensor.tensor) (bg : bigram) :
  indices_in_range d →
  Tensor.has_shape t (dict_len d) (dict_len d) →
  in_vocab d bg = true →
  ∃ (i j : nat) (x : Z) (t' : Tensor.tensor),
    (i < dict_len d)%nat ∧ (j < dict_len d)%nat
    ∧ dict_get d bg.1 = Some (Z.of_nat i)
    ∧ dict_get d bg.2 = Some (Z.of_nat j)
    ∧ Tensor.cell t i j = Some x
    ∧ count_step d t bg = Ok t'
    ∧ Tensor.has_shape t' (dict_len d) (dict_len d)
    ∧ Tensor.cell t' i j = Some (Tensor.wrap32 (x + 1))
    ∧ (∀ i' j', (i', j') ≠ (i, j) → Tensor.cell t' i' j' = Tensor.cell t i' j')
    ∧ Tensor.sum t' = Tensor.sum t - x + Tensor.wrap32 (x + 1).
Proof.
  intros Hrange Hshape Hin. destruct bg as [a b].
  unfold in_vocab, dict_mem in Hin. cbn in Hin.
  destruct (dict_get d a) as [ia|] eqn:Ea; [|done].
  destruct (dict_get d b) as [ib|] eqn:Eb; [|done].
  unfold indices_in_range in Hrange. rewrite Forall_forall in Hrange.
  pose proof (Hrange _ (dict_get_Some_elem _ _ _ Ea)) as Hia.
  pose proof (Hrange _ (dict_get_Some_elem _ _ _ Eb)) as Hib.
  cbn in Hia, Hib.
  destruct (add_at_spec t _ _ (Z.to_nat ia) (Z.to_nat ib) 1 Hshape)
    as (x & t' & Hx & Hadd & Hshape' & Hcell & Hother & Hsum); [lia..|].
  rewrite !Z2Nat.id in Hadd by lia.
  exists (Z.to_nat ia), (Z.to_nat ib), x, t'.
  rewrite !Z2Nat.id by lia. cbn.
  repeat (split; [first [done | lia]|]).
  split; [|done].
  unfold count_step, dict_mem, dict_getitem. rewrite Ea, Eb. cbn. exact Hadd.
Qed.

(** The skipped bigrams can be dropped from the list beforehand. *)
Lemma for_each_count_filter (d : dict string Z) (bgs : list bigram)
    (t : Tensor.tensor) :
  for_each (count_step d) (List.filter (in_vocab d) bgs) t
  = for_each (count_step d) bgs t.
Proof.
  revert t. induction bgs as [|bg bgs IH]; intros t; [done|].
  cbn [List.filter]. destruct (in_vocab d bg) eqn:E.
  - cbn. destruct (count_step d t bg); cbn; [apply IH|done].
  - cbn. rewrite (count_step_skip _ _ _ E). cbn. apply IH.
Qed.

(** The loop, with 32-bit cells: cell [(i, j)] has grown by the number of
    bigrams landing on it, modulo [2 ^ 32]. *)
Lemma count_loop_cells (d : dict string Z) (bgs : list bigram)
    (t0 : Tensor.tensor) (c0 : nat → nat → Z) :
  indices_in_range d →
  Tensor.has_shape t0 (dict_len d) (dict_len d) →
  (∀ i j, (i < dict_len d)%nat → (j < dict_len d)%nat →
     Tensor.cell t0 i j = Some (Tensor.wrap32 (c0 i j))) →
  ∃ t, for_each (count_step d) bgs t0 = Ok t
       ∧ Tensor.has_shape t (dict_len d) (dict_len d)
       ∧ ∀ i j, (i < dict_len d)%nat → (j < dict_len d)%nat →
           Tensor.cell t i j
           = Some (Tensor.wrap32 (c0 i j + Z.of_nat (occurrences d i j bgs))).
Proof.
  intros Hrange. revert t0 c0.
  induction bgs as [|bg bgs IH]; intros t0 c0 Hshape Hcells.
  - exists t0. split; [done|]. split; [done|]. intros i j Hi Hj.
    rewrite (Hcells i j Hi Hj). cbn. by rewrite Z.add_0_r.
  - destruct (in_vocab d bg) eqn:Hin.
    + destruct (count_step_hit d t0 bg Hrange Hshape Hin)
        as (i0 & j0 & x & t' & Hi0 & Hj0 & Ha & Hb & Hx & Hstep & Hshape'
            & Hcell & Hother & _).
      set (c1 := λ i j, if decide ((i, j) = (i0, j0))
                        then c0 i j + 1 else c0 i j).
      destruct (IH t' c1 Hshape') as (t & Hloop & Hshape'' & Hfinal).
      { intros i j Hi Hj. unfold c1.
        destruct (decide ((i, j) = (i0, j0))) as [[= -> ->]|Hne].
        - rewrite Hcell. rewrite (Hcells i0 j0 Hi Hj) in Hx.
          injection Hx as <-. by rewrite wrap32_succ.
        - rewrite (Hother _ _ Hne). by apply Hcells. }
      exists t. split; [|split; [done|]].
      * cbn. rewrite Hstep. exact Hloop.
      * intros i j Hi Hj. rewrite (Hfinal i j Hi Hj). do 2 f_equal.
        rewrite occurrences_cons. unfold c1, lands_on.
        destruct (decide ((i, j) = (i0, j0))) as [[= -> ->]|Hne].
        -- rewrite bool_decide_eq_true_2 by done. lia.
        -- rewrite bool_decide_eq_false_2; [lia|].
           intros [H1 H2]. apply Hne.
           rewrite Ha in H1. rewrite Hb in H2.
           injection H1 as H1. injection H2 as H2.
           f_equal; lia.
    + destruct (IH t0 c0 Hshape Hcells) as (t & Hloop & Hshape' & Hfinal).
      exists t. split; [|split; [done|]].
      * cbn. rewrite (count_step_skip _ _ _ Hin). exact Hloop.
      * intros i j Hi Hj. rewrite (Hfinal i j Hi Hj). do 2 f_equal.
        rewrite occurrences_cons.
        destruct (lands_on d i j bg) eqn:E; [|lia].
        apply lands_on_in_vocab in E. congruence.
Qed.

(** The loop, below the 32-bit limit: every cell stays between 0 and the
    number of counted bigrams, which is the sum of the table. *)
Lemma count_loop_sum (d : dict string Z) (bgs : list bigram)
    (t0 : Tensor.tensor) (m : Z) :
  indices_in_range d →
  Tensor.has_shape t0 (dict_len d) (dict_len d) →
  (∀ i j x, Tensor.cell t0 i j = Some x → 0 ≤ x ≤ m) →
  m + Z.of_nat (in_vocab_count d bgs) < 2 ^ 31 →
  ∀ t, for_each (count_step d) bgs t0 = Ok t →
       Tensor.sum t = Tensor.sum t0 + Z.of_nat (in_vocab_count d bgs).
Proof.
  intros Hrange. revert t0 m.
  induction bgs as [|bg bgs IH]; intros t0 m Hshape Hcells Hm t Hloop.
  - cbn in Hloop. injection Hloop as <-. cbn. lia.
  - rewrite in_vocab_count_cons in *. destruct (in_vocab d bg) eqn:Hin.
    + destruct (count_step_hit d t0 bg Hrange Hshape Hin)
        as (i0 & j0 & x & t' & Hi0 & Hj0 & Ha & Hb & Hx & Hstep & Hshape'
            & Hcell & Hother & Hsum).
      cbn in Hloop. rewrite Hstep in Hloop. cbn in Hloop.
      pose proof (Hcells _ _ _ Hx) as Hxm.
      rewrite wrap32_small in Hcell, Hsum by lia.
      assert (Hcells' : ∀ i j y, Tensor.cell t' i j = Some y → 0 ≤ y ≤ m + 1).
      { intros i j y Hy.
        destruct (decide ((i, j) = (i0, j0))) as [[= -> ->]|Hne].
        - rewrite Hcell in Hy. injection Hy as <-. lia.
        - rewrite (Hother _ _ Hne) in Hy. apply Hcells in Hy. lia. }
      rewrite (IH t' (m + 1) Hshape' Hcells' ltac:(lia) t Hloop). lia.
    + cbn in Hloop. rewrite (count_step_skip _ _ _ Hin) in Hloop. cbn in Hloop.
      rewrite (IH t0 m Hshape Hcells ltac:(lia) t Hloop). lia.
Qed.

(** C1 (as amended).  For a mapping whose indices all lie in
    [[0, len(mapping))] and a list with fewer than [2 ^ 31] bigrams in the
    vocabulary, [count_bigrams] returns a square table of size
    [len(mapping)] in which cell [(i, j)] is the number of bigrams [(a, b)]
    with [index(a) = i] and [index(b) = j]; bigrams with a character outside
    the mapping raise nothing and count nowhere; the cells add up to the
    number of bigrams with both characters in the mapping. *)
Theorem count_bigrams_table (bigrams : list bigram) (d : dict string Z) :
  indices_in_range d →
  Z.of_nat (in_vocab_count d bigrams) < 2 ^ 31 →
  ∃ t : Tensor.tensor,
    count_bigrams bigrams d = Ok t
    ∧ Tensor.has_shape t (dict_len d) (dict_len d)
    ∧ (∀ i j, (i < dict_len d)%nat → (j < dict_len d)%nat →
         Tensor.cell t i j = Some (Z.of_nat (occurrences d i j bigrams)))
    ∧ count_bigrams (List.filter (in_vocab d) bigrams) d = Ok t
    ∧ Tensor.sum t = Z.of_nat (in_vocab_count d bigrams).
Proof.
  intros Hrange Hsmall. unfold count_bigrams.
  set (n := dict_len d).
  destruct (count_loop_cells d bigrams (Tensor.zeros n n) (λ _ _, 0) Hrange)
    as (t & Hloop & Hshape & Hcells).
  { apply zeros_shape. }
  { intros i j Hi Hj. by apply cell_zeros. }
  exists t. split; [done|]. split; [done|]. split; [|split].
  - intros i j Hi Hj. rewrite (Hcells i j Hi Hj). f_equal.
    pose proof (occurrences_le d i j bigrams).
    rewrite wrap32_small; lia.
  - by rewrite for_each_count_filter.
  - rewrite (count_loop_sum d bigrams (Tensor.zeros n n) 0 Hrange
               (zeros_shape n n)) with (t := t); [..|done].
    + rewrite sum_zeros. lia.
    + intros i j x Hx. unfold Tensor.cell, Tensor.zeros in Hx.
      destruct (replicate n (replicate n 0) !! i) as [row|] eqn:Erow; [|done].
      apply lookup_replicate in Erow as [-> _]. cbn in Hx.
      apply lookup_replicate in Hx as [-> _]. lia.
    + lia.
Qed.

Lemma count_bigrams_table_witness :
  let bigrams := [("-", "a"); ("a", "b"); ("a", "b"); ("z", "a"); ("b", ".")] in
  let d := char_to_index "ab" "-" "." in
  indices_in_range d
  ∧ Z.of_nat (in_vocab_count d bigrams) < 2 ^ 31
  ∧ ∃ t : Tensor.tensor,
      count_bigrams bigrams d = Ok t
      ∧ Tensor.has_shape t (dict_len d) (dict_len d)
      ∧ (∀ i j, (i < dict_len d)%nat → (j < dict_len d)%nat →
           Tensor.cell t i j = Some (Z.of_nat (occurrences d i j bigrams)))
      ∧ count_bigrams (List.filter (in_vocab d) bigrams) d = Ok t
      ∧ Tensor.sum t = Z.of_nat (in_vocab_count d bigrams).
Proof.
  intros bigrams d.
  assert (Hrange : indices_in_range d) by compute_done.
  assert (Hsmall : Z.of_nat (in_vocab_count d bigrams) < 2 ^ 31)
    by (vm_compute; reflexivity).
  split; [exact Hrange|]. split; [exact Hsmall|].
  exact (count_bigrams_table bigrams d Hrange Hsmall).
Defined.

(** A list of [n] copies of one bigram over a one-symbol vocabulary. *)
Lemma count_bigrams_replicate (n : nat) :
  count_bigrams (replicate n ("a", "a")) [("a", 0)]
  = Ok [[Tensor.wrap32 (Z.of_nat n)]].
Proof.
  assert (Hrange : indices_in_range [("a", 0)]) by compute_done.
  unfold count_bigrams.
  destruct (count_loop_cells [("a", 0)] (replicate n ("a", "a"))
              (Tensor.zeros 1 1) (λ _ _, 0) Hrange)
    as (t & Hloop & [Hlen Hrows] & Hcells).
  { apply zeros_shape. }
  { intros i j Hi Hj. by apply cell_zeros. }
  change (dict_len [("a", 0)]) with 1%nat in *.
  rewrite Hloop. f_equal.
  specialize (Hcells 0%nat 0%nat ltac:(lia) ltac:(lia)).
  assert (Hocc : occurrences [("a", 0)] 0 0 (replicate n ("a", "a")) = n).
  { clear. induction n as [|n IH]; [done|].
    change (replicate (S n) ("a", "a")) with (("a", "a") :: replicate n ("a", "a")).
    rewrite occurrences_cons, IH. done. }
  rewrite Hocc, Z.add_0_l in Hcells.
  destruct t as [|row [|row' t]]; try done.
  apply Forall_cons in Hrows as [Hrow _].
  destruct row as [|x [|y row]]; try done.
  cbn in Hcells. by injection Hcells as ->.
Qed.

Lemma in_vocab_count_replicate (n : nat) :
  in_vocab_count [("a", 0)] (replicate n ("a", "a")) = n.
Proof.
  induction n as [|n IH]; [done|].
  change (replicate (S n) ("a", "a")) with (("a", "a") :: replicate n ("a", "a")).
  by rewrite in_vocab_count_cons, IH.
Qed.

(** C1, as the claim words it for every mapping and every list, fails on
    both counts: an index outside the table raises [IndexError], and
    [2 ^ 31] copies of a bigram wrap its 32-bit cell to [- 2 ^ 31], so that
    the table does not add up to the number of bigrams counted. *)
Lemma count_bigrams_out_of_range_or_wrapped :
  count_bigrams [("a", "a")] [("a", 5)] = Raise IndexError
  ∧ count_bigrams (replicate (Z.to_nat (2 ^ 31)) ("a", "a")) [("a", 0)]
    = Ok [[- 2 ^ 31]]
  ∧ Tensor.sum [[- 2 ^ 31]]
    ≠ Z.of_nat (in_vocab_count [("a", 0)]
                  (replicate (Z.to_nat (2 ^ 31)) ("a", "a"))).
Proof.
  split; [reflexivity|]. split.
  - rewrite count_bigrams_replicate. rewrite Z2Nat.id by lia. reflexivity.
  - rewrite in_vocab_count_replicate. rewrite Z2Nat.id by lia. discriminate.
Qed.

(** C9.  With no record there is no bigram, and the table of any mapping
    is the zero table of size [len(mapping)]. *)
Theorem empty_source_zero_table (d : dict string Z)
    (start_token end_token : string) :
  load_and_preprocess_data [] start_token end_token = Ok []
  ∧ ∃ t : Tensor.tensor,
      (bgs ← load_and_preprocess_data [] start_token end_token;
       count_bigrams bgs d) = Ok t
      ∧ Tensor.has_shape t (dict_len d) (dict_len d)
      ∧ Forall (Forall (λ x, x = 0)) t
      ∧ Tensor.sum t = 0.
Proof.
  split; [done|]. exists (Tensor.zeros (dict_len d) (dict_len d)).
  split; [done|]. split; [apply zeros_shape|]. split; [|apply sum_zeros].
  unfold Tensor.zeros. apply Forall_replicate. by apply Forall_replicate.
Qed.

(** In a valid configuration the indices are the positions of the table. *)
Lemma char_to_index_in_range (a s e : string) :
  valid_vocab a s e → indices_in_range (char_to_index a s e).
Proof.
  intros Hv. unfold indices_in_range. rewrite Forall_forall.
  intros [c i] Hin. cbn.
  assert (i ∈ dict_values (char_to_index a s e)) as Hi.
  { unfold dict_values. apply list_elem_of_fmap. by exists (c, i). }
  rewrite (char_to_index_valid_values _ _ _ Hv), elem_of_seqZ in Hi.
  rewrite (char_to_index_valid_len _ _ _ Hv). lia.
Qed.

(** C10.  In a valid configuration every index of the mapping lies in
    [[0, len(mapping))], so that [count_bigrams] raises on no bigram list
    and returns a table of that size. *)
Theorem char_to_index_within_table (alphabet start_token end_token : string) :
  valid_vocab alphabet start_token end_token →
  let d := char_to_index alphabet start_token end_token in
  (∀ c i, dict_get d c = Some i → 0 ≤ i < Z.of_nat (dict_len d))
  ∧ ∀ bigrams : list bigram,
      ∃ t : Tensor.tensor,
        count_bigrams bigrams d = Ok t
        ∧ Tensor.has_shape t (dict_len d) (dict_len d).
Proof.
  intros Hv d.
  pose proof (char_to_index_in_range _ _ _ Hv) as Hrange. fold d in Hrange.
  split.
  - intros c i Hc%dict_get_Some_elem.
    unfold indices_in_range in Hrange. rewrite Forall_forall in Hrange.
    exact (Hrange _ Hc).
  - intros bigrams. unfold count_bigrams.
    destruct (count_loop_cells d bigrams
                (Tensor.zeros (dict_len d) (dict_len d)) (λ _ _, 0) Hrange)
      as (t & Hloop & Hshape & _).
    + apply zeros_shape.
    + intros i j Hi Hj. by apply cell_zeros.
    + by exists t.
Qed.

Lemma char_to_index_within_table_witness :
  valid_vocab "ab" "-" "."
  ∧ let d := char_to_index "ab" "-" "." in
    (∀ c i, dict_get d c = Some i → 0 ≤ i < Z.of_nat (dict_len d))
    ∧ ∀ bigrams : list bigram,
        ∃ t : Tensor.tensor,
          count_bigrams bigrams d = Ok t
          ∧ Tensor.has_shape t (dict_len d) (dict_len d).
Proof.
  split.
  - unfold valid_vocab. compute_done.
  - apply (char_to_index_within_table "ab" "-" ".").
    unfold valid_vocab. compute_done.
Defined.

(** Outside a valid configuration the bound can fail: with the start token
    in the alphabet the mapping has three entries and the end token index
    3. *)
Example collision_breaks_the_bound :
  char_to_index "a-" "-" "." = [("-", 2); ("a", 1); (".", 3)]
  ∧ count_bigrams [("a", ".")] (char_to_index "a-" "-" ".") = Raise IndexError.
Proof. split; reflexivity. Qed.

(** ** The counting loop over the store *)

Lemma insert_same_tensor (h : Store.store) (l : Store.loc) (t : Tensor.tensor) :
  h !! l = Some (Store.OTensor t) → <[l := Store.OTensor t]> h = h.
Proof. apply list_insert_id. Qed.

(** One iteration writes the tensor object and nothing else. *)
Lemma count_body_spec (h : Store.store) (ld lt : Store.loc)
    (d : dict string Z) (t : Tensor.tensor) (bg : bigram) :
  h !! ld = Some (Store.ODict d) →
  h !! lt = Some (Store.OTensor t) →
  Store.count_body ld lt bg h
  = match count_step d t bg with
    | Ok t' => (Ok tt, <[lt := Store.OTensor t']> h)
    | Raise e => (Raise e, h)
    end.
Proof.
  intros Hd Ht. destruct bg as [a b].
  unfold Store.count_body, count_step, Store.bind, Store.read_dict.
  rewrite Hd.
  destruct (dict_mem d a && dict_mem d b).
  - unfold Store.lift.
    destruct (dict_getitem d a) as [ia|e]; [|done]. cbn.
    destruct (dict_getitem d b) as [ib|e]; [|done]. cbn.
    unfold Store.read_tensor. rewrite Ht.
    destruct (Tensor.add_at t ia ib 1) as [t'|e]; [|done].
    unfold Store.write_tensor. by rewrite Ht.
  - unfold Store.ret. by rewrite (insert_same_tensor _ _ _ Ht).
Qed.

(** The iterator visits every element from position [i] on, and the store
    changes at the tensor only. *)
Lemma iterate_spec (steps : nat) (h : Store.store) (lb ld lt : Store.loc)
    (xs : list bigram) (d : dict string Z) (t : Tensor.tensor) (i : nat) :
  h !! lb = Some (Store.OList xs) →
  h !! ld = Some (Store.ODict d) →
  h !! lt = Some (Store.OTensor t) →
  (length xs ≤ i + steps)%nat →
  ∃ t' : Tensor.tensor,
    Store.iterate lb (Store.count_body ld lt) i steps h
    = ((λ _, tt) <$> for_each (count_step d) (drop i xs) t,
       <[lt := Store.OTensor t']> h)
    ∧ ∀ tf, for_each (count_step d) (drop i xs) t = Ok tf → t' = tf.
Proof.
  revert h t i. induction steps as [|steps IH]; intros h t i Hb Hd Ht Hlen.
  - exists t. rewrite drop_ge by lia. cbn.
    rewrite (insert_same_tensor _ _ _ Ht). split; [done|]. by intros tf [= <-].
  - cbn [Store.iterate]. unfold Store.bind at 1, Store.read_list. rewrite Hb.
    destruct (xs !! i) as [x|] eqn:Ex.
    + rewrite (drop_S _ _ _ Ex). unfold Store.bind.
      rewrite (count_body_spec _ _ _ _ _ _ Hd Ht). cbn [for_each].
      destruct (count_step d t x) as [t1|e] eqn:Estep.
      * assert (lb ≠ lt) as Hbt by (intros ->; congruence).
        assert (ld ≠ lt) as Hdt by (intros ->; congruence).
        destruct (IH (<[lt := Store.OTensor t1]> h) t1 (S i)) as (t' & Hrun & Hfin).
        { by rewrite list_lookup_insert_ne. }
        { by rewrite list_lookup_insert_ne. }
        { apply list_lookup_insert_eq. by eapply lookup_lt_Some. }
        { lia. }
        exists t'. rewrite Hrun. rewrite list_insert_insert_eq. done.
      * exists t. rewrite (insert_same_tensor _ _ _ Ht). done.
    + exists t. rewrite drop_ge by (by apply lookup_ge_None).
      cbn. rewrite (insert_same_tensor _ _ _ Ht). split; [done|].
      by intros tf [= <-].
Qed.

(** [count_bigrams] over the store computes the pure [count_bigrams] of
    the contents of its two arguments and only appends its table. *)
Lemma store_count_bigrams_spec (h : Store.store) (lb ld : Store.loc)
    (xs : list bigram) (d : dict string Z) :
  h !! lb = Some (Store.OList xs) →
  h !! ld = Some (Store.ODict d) →
  ∃ t : Tensor.tensor,
    Store.count_bigrams lb ld h
    = ((λ _, length h) <$> count_bigrams xs d, h ++ [Store.OTensor t])
    ∧ ∀ tf, count_bigrams xs d = Ok tf → t = tf.
Proof.
  intros Hb Hd. unfold Store.count_bigrams, Store.bind at 1, Store.read_dict.
  rewrite Hd. unfold Store.bind at 1, Store.new.
  set (t0 := Tensor.zeros (dict_len d) (dict_len d)).
  set (h0 := h ++ [Store.OTensor t0]).
  assert (Hb0 : h0 !! lb = Some (Store.OList xs)) by by apply lookup_app_l_Some.
  assert (Hd0 : h0 !! ld = Some (Store.ODict d)) by by apply lookup_app_l_Some.
  assert (Ht0 : h0 !! length h = Some (Store.OTensor t0)).
  { unfold h0. by rewrite lookup_app_r, Nat.sub_diag. }
  unfold Store.bind at 1, Store.read_list. rewrite Hb0.
  destruct (iterate_spec (length xs) h0 lb ld (length h) xs d t0 0 Hb0 Hd0 Ht0)
    as (t & Hrun & Hfin); [lia|].
  rewrite drop_0 in Hrun, Hfin.
  exists t. split; [|done].
  unfold Store.bind. rewrite Hrun.
  assert (<[length h := Store.OTensor t]> h0 = h ++ [Store.OTensor t]) as ->.
  { unfold h0. rewrite insert_app_r_alt, Nat.sub_diag by lia. done. }
  unfold count_bigrams. fold t0.
  by destruct (for_each (count_step d) xs t0).
Qed.

Lemma store_count_bigrams_outcome (h : Store.store) (lb ld : Store.loc)
    (xs : list bigram) (d : dict string Z) :
  h !! lb = Some (Store.OList xs) →
  h !! ld = Some (Store.ODict d) →
  Store.outcome (Store.count_bigrams lb ld h) = Some <$> count_bigrams xs d.
Proof.
  intros Hb Hd.
  destruct (store_count_bigrams_spec h lb ld xs d Hb Hd) as (t & -> & Hfin).
  destruct (count_bigrams xs d) as [tf|e]; [|done].
  cbn. unfold Store.tensor_at.
  rewrite lookup_app_r, Nat.sub_diag by lia. cbn.
  by rewrite (Hfin tf eq_refl).
Qed.

(** The script over the store yields what the pure script yields, whatever
    else the store holds. *)
Lemma store_pipeline_outcome (h : Store.store) (lines : list string)
    (a s e : string) :
  Store.outcome (Store.pipeline lines a s e h) = Some <$> pipeline lines a s e.
Proof.
  unfold Store.pipeline, pipeline, Store.bind at 1, Store.new.
  unfold Store.bind at 1, Store.lift. rewrite load_spec.
  unfold Store.bind at 1, Store.new. cbn [mbind result_mbind result_bind].
  apply store_count_bigrams_outcome.
  - rewrite lookup_app_r, Nat.sub_diag by lia. done.
  - apply lookup_app_l_Some. rewrite lookup_app_r, Nat.sub_diag by lia. done.
Qed.

(** C8.  Two runs of [count_bigrams] on equal bigram lists and equal
    mappings, in whatever stores, yield the same table or the same
    exception, namely that of the pure function of the two contents; a
    run leaves every object of the store as it was and only adds its
    table; and two runs of the script on the same lines and configuration
    yield the same table, the second run being free to start in the store
    the first one left. *)
Theorem count_bigrams_deterministic
    (h1 h2 : Store.store) (lb1 ld1 lb2 ld2 : Store.loc)
    (bigrams : list bigram) (d : dict string Z) :
  h1 !! lb1 = Some (Store.OList bigrams) →
  h1 !! ld1 = Some (Store.ODict d) →
  h2 !! lb2 = Some (Store.OList bigrams) →
  h2 !! ld2 = Some (Store.ODict d) →
  Store.outcome (Store.count_bigrams lb1 ld1 h1)
  = Store.outcome (Store.count_bigrams lb2 ld2 h2)
  ∧ Store.outcome (Store.count_bigrams lb1 ld1 h1)
    = Some <$> count_bigrams bigrams d
  ∧ (∃ t, (Store.count_bigrams lb1 ld1 h1).2 = h1 ++ [Store.OTensor t])
  ∧ (Store.count_bigrams lb1 ld1 h1).2 !! lb1 = Some (Store.OList bigrams)
  ∧ (Store.count_bigrams lb1 ld1 h1).2 !! ld1 = Some (Store.ODict d)
  ∧ ∀ (lines : list string) (alphabet start_token end_token : string),
      Store.outcome (Store.pipeline lines alphabet start_token end_token h1)
      = Store.outcome
          (Store.pipeline lines alphabet start_token end_token
             (Store.pipeline lines alphabet start_token end_token h1).2)
      ∧ Store.outcome (Store.pipeline lines alphabet start_token end_token h1)
        = Store.outcome (Store.pipeline lines alphabet start_token end_token h2).
Proof.
  intros Hb1 Hd1 Hb2 Hd2.
  rewrite (store_count_bigrams_outcome _ _ _ _ _ Hb1 Hd1).
  rewrite (store_count_bigrams_outcome _ _ _ _ _ Hb2 Hd2).
  destruct (store_count_bigrams_spec h1 lb1 ld1 bigrams d Hb1 Hd1)
    as (t & -> & _).
  split; [done|]. split; [done|]. split; [by exists t|].
  split; [by apply lookup_app_l_Some|]. split; [by apply lookup_app_l_Some|].
  intros lines alphabet start_token end_token.
  by rewrite !store_pipeline_outcome.
Qed.

Lemma count_bigrams_deterministic_witness :
  let bigrams := [("-", "a"); ("a", "."); ("z", "a")] in
  let d := char_to_index "a" "-" "." in
  let h1 := [Store.OList bigrams; Store.ODict d] in
  let h2 := [Store.ODict d; Store.OTensor [[7]]; Store.OList bigrams] in
  h1 !! 0%nat = Some (Store.OList bigrams)
  ∧ h1 !! 1%nat = Some (Store.ODict d)
  ∧ h2 !! 2%nat = Some (Store.OList bigrams)
  ∧ h2 !! 0%nat = Some (Store.ODict d)
  ∧ Store.outcome (Store.count_bigrams 0 1 h1)
    = Store.outcome (Store.count_bigrams 2 0 h2)
  ∧ Store.outcome (Store.count_bigrams 0 1 h1)
    = Some <$> count_bigrams bigrams d
  ∧ (∃ t, (Store.count_bigrams 0 1 h1).2 = h1 ++ [Store.OTensor t])
  ∧ (Store.count_bigrams 0 1 h1).2 !! 0%nat = Some (Store.OList bigrams)
  ∧ (Store.count_bigrams 0 1 h1).2 !! 1%nat = Some (Store.ODict d)
  ∧ ∀ (lines : list string) (alphabet start_token end_token : string),
      Store.outcome (Store.pipeline lines alphabet start_token end_token h1)
      = Store.outcome
          (Store.pipeline lines alphabet start_token end_token
             (Store.pipeline lines alphabet start_token end_token h1).2)
      ∧ Store.outcome (Store.pipeline lines alphabet start_token end_token h1)
        = Store.outcome (Store.pipeline lines alphabet start_token end_token h2).
Proof.
  intros bigrams d h1 h2.
  split; [reflexivity|]. split; [reflexivity|].
  split; [reflexivity|]. split; [reflexivity|].
  apply (count_bigrams_deterministic h1 h2 0 1 2 0 bigrams d); reflexivity.
Defined.

(** * Further properties of the code *)

(** ** The extractor *)

Lemma ascii_list_app (s1 s2 : string) :
  list_ascii_of_string (s1 +:+ s2)
  = list_ascii_of_string s1 ++ list_ascii_of_string s2.
Proof.
  induction s1 as [|c s1 IH]; [done|]. rewrite str_app_cons. cbn. by f_equal.
Qed.

Lemma ascii_list_lower (s : string) :
  list_ascii_of_string (Str.lower s) = Str.lower_char <$> list_ascii_of_string s.
Proof. induction s as [|c s IH]; [done|]. cbn. by f_equal. Qed.

Lemma chars_app_snoc (s1 s2 : string) :
  Str.chars (s1 +:+ s2) = Str.chars s1 ++ Str.chars s2.
Proof.
  induction s1 as [|c s1 IH]; [done|]. rewrite str_app_cons. cbn. by f_equal.
Qed.

Lemma elem_of_chars (s x : string) :
  x ∈ Str.chars s ↔ ∃ c, x = Str.char c ∧ c ∈ list_ascii_of_string s.
Proof.
  induction s as [|c s IH]; cbn.
  - split; [by intros ?%elem_of_nil|]. by intros (c & _ & ?%elem_of_nil).
  - rewrite elem_of_cons, IH. split.
    + intros [->|(c' & -> & Hin)]; [exists c|exists c'];
        (split; [done|]); [left|by right].
    + intros (c' & -> & [->|Hin]%elem_of_cons); [by left|right; by exists c'].
Qed.

Lemma elem_of_adjacent_pairs (cs : list string) (a b : string) :
  (a, b) ∈ adjacent_pairs cs → a ∈ cs ∧ b ∈ cs.
Proof.
  unfold adjacent_pairs. intros Hin. split.
  - by eapply elem_of_zip_l.
  - apply elem_of_zip_r in Hin. destruct cs; [done|]. by right.
Qed.

Lemma adjacent_pairs_lookup_inv (cs : list string) (i : nat) (a b : string) :
  adjacent_pairs cs !! i = Some (a, b) → cs !! i = Some a ∧ cs !! S i = Some b.
Proof.
  unfold adjacent_pairs. intros (x & y & [= <- <-] & Hx & Hy)%lookup_zip_with_Some.
  by rewrite lookup_tail in Hy.
Qed.

(** A bigram of a line is made of two characters of the padded word of
    its first token. *)
Lemma line_bigrams_elem (s e line : string) (bg : bigram) :
  bg ∈ line_bigrams s e line →
  ∃ part0 rest c1 c2,
    Str.split line = part0 :: rest
    ∧ bg = (Str.char c1, Str.char c2)
    ∧ c1 ∈ list_ascii_of_string (s +:+ Str.lower part0 +:+ e)
    ∧ c2 ∈ list_ascii_of_string (s +:+ Str.lower part0 +:+ e).
Proof.
  unfold line_bigrams. destruct (Str.split line) as [|part0 rest]; [by intros ?%elem_of_nil|].
  destruct bg as [a b]. intros [Ha Hb]%elem_of_adjacent_pairs.
  apply elem_of_chars in Ha as (c1 & -> & Hc1).
  apply elem_of_chars in Hb as (c2 & -> & Hc2).
  by exists part0, rest, c1, c2.
Qed.

Lemma elem_of_load (lines : list string) (s e : string) (bg : bigram) :
  bg ∈ concat (line_bigrams s e <$> lines) ↔
  ∃ line, line ∈ lines ∧ bg ∈ line_bigrams s e line.
Proof.
  induction lines as [|l lines IH]; cbn.
  - split; [by intros ?%elem_of_nil|]. by intros (? & ?%elem_of_nil & _).
  - rewrite elem_of_app, IH. split.
    + intros [Hbg|(line & Hline & Hbg)].
      * exists l. split; [left|done].
      * exists line. split; [by right|done].
    + intros (line & [->|Hline]%elem_of_cons & Hbg); [by left|].
      right. by exists line.
Qed.

(** X1.  The extractor raises on no input, and the bigrams of a file are
    the bigrams of its first part followed by those of its second part. *)
Theorem extractor_concatenates (lines1 lines2 : list string)
    (start_token end_token : string) :
  ∃ b1 b2 : list bigram,
    load_and_preprocess_data lines1 start_token end_token = Ok b1
    ∧ load_and_preprocess_data lines2 start_token end_token = Ok b2
    ∧ load_and_preprocess_data (lines1 ++ lines2) start_token end_token
      = Ok (b1 ++ b2).
Proof.
  do 2 eexists. split; [apply load_spec|]. split; [apply load_spec|].
  by rewrite load_spec, fmap_app, concat_app.
Qed.

(** X2.  Only the first token of a line counts, and only up to the case
    of its letters: two lines whose first tokens agree after lowercasing
    can replace each other anywhere in the file. *)
Theorem extractor_ignores_case_and_rest
    (line1 line2 w1 w2 : string) (rest1 rest2 before after : list string)
    (start_token end_token : string) :
  Str.split line1 = w1 :: rest1 →
  Str.split line2 = w2 :: rest2 →
  Str.lower w1 = Str.lower w2 →
  load_and_preprocess_data (before ++ line1 :: after) start_token end_token
  = load_and_preprocess_data (before ++ line2 :: after) start_token end_token.
Proof.
  intros H1 H2 Hlow. rewrite !load_spec, !fmap_app. cbn.
  rewrite (line_bigrams_word _ _ _ _ _ H1), (line_bigrams_word _ _ _ _ _ H2).
  by rewrite Hlow.
Qed.

Lemma extractor_ignores_case_and_rest_witness :
  Str.split "Anna 5 3" = "Anna" :: ["5"; "3"]
  ∧ Str.split "  aNNa" = "aNNa" :: []
  ∧ Str.lower "Anna" = Str.lower "aNNa"
  ∧ load_and_preprocess_data (["Bo 1 2"] ++ "Anna 5 3" :: ["Cy"]) "-" "."
    = load_and_preprocess_data (["Bo 1 2"] ++ "  aNNa" :: ["Cy"]) "-" ".".
Proof.
  split; [reflexivity|]. split; [reflexivity|]. split; [reflexivity|].
  apply (extractor_ignores_case_and_rest "Anna 5 3" "  aNNa" "Anna" "aNNa"
           ["5"; "3"] [] ["Bo 1 2"] ["Cy"] "-" "."); reflexivity.
Defined.

(** X5.  With one-character sentinels the bigrams of a record start with
    the start token, end with the end token, and each bigram begins with
    the character the one before it ends with. *)
Theorem extractor_word_boundaries
    (line w : string) (rest : list string) (s e : ascii) :
  Str.split line = w :: rest →
  ∃ bgs : list bigram,
    load_and_preprocess_data [line] (Str.char s) (Str.char e) = Ok bgs
    ∧ (∃ x, head bgs = Some (Str.char s, x))
    ∧ (∃ y, list.last bgs = Some (y, Str.char e))
    ∧ ∀ i a b c d,
        bgs !! i = Some (a, b) → bgs !! S i = Some (c, d) → b = c.
Proof.
  intros Hsplit.
  set (cs := Str.chars (Str.char s +:+ Str.lower w +:+ Str.char e)).
  exists (adjacent_pairs cs). split; [|split; [|split]].
  - rewrite load_spec. cbn. rewrite app_nil_r.
    by rewrite (line_bigrams_word _ _ _ _ _ Hsplit).
  - assert (∃ x l, cs = Str.char s :: x :: l) as (x & l & ->).
    { unfold cs. change (Str.char s +:+ ?r) with (String s r).
      cbn [Str.chars].
      destruct (Str.chars (Str.lower w +:+ Str.char e)) as [|x l] eqn:E.
      - apply (f_equal length) in E.
        rewrite length_chars, string_length_app in E. cbn in E. lia.
      - by exists x, l. }
    by exists x.
  - assert (Hlen : length cs = (String.length w + 2)%nat).
    { unfold cs. rewrite length_chars, !string_length_app, length_lower. cbn. lia. }
    assert (Hlast : cs !! S (String.length w) = Some (Str.char e)).
    { unfold cs. rewrite <- str_app_assoc, chars_app_snoc.
      rewrite lookup_app_r; rewrite length_chars, string_length_app, length_lower;
        cbn; [|lia].
      by rewrite Nat.sub_diag. }
    destruct (lookup_lt_is_Some_2 cs (String.length w)) as [y Hy]; [lia|].
    exists y. rewrite last_lookup, length_adjacent_pairs, Hlen.
    replace (Init.Nat.pred (String.length w + 2 - 1)) with (String.length w) by lia.
    by apply lookup_adjacent_pairs.
  - intros i a b c d [_ Hb]%adjacent_pairs_lookup_inv [Hc _]%adjacent_pairs_lookup_inv.
    congruence.
Qed.

Lemma extractor_word_boundaries_witness :
  Str.split "Anna 5 3" = "Anna" :: ["5"; "3"]
  ∧ ∃ bgs : list bigram,
      load_and_preprocess_data ["Anna 5 3"] (Str.char "-") (Str.char ".") = Ok bgs
      ∧ (∃ x, head bgs = Some (Str.char "-", x))
      ∧ (∃ y, list.last bgs = Some (y, Str.char "."))
      ∧ ∀ i a b c d,
          bgs !! i = Some (a, b) → bgs !! S i = Some (c, d) → b = c.
Proof.
  split; [reflexivity|].
  apply (extractor_word_boundaries "Anna 5 3" "Anna" ["5"; "3"] "-" ".").
  reflexivity.
Defined.

Lemma lower_char_not_space (c : ascii) :
  Str.isspace c = false → Str.isspace (Str.lower_char c) = false.
Proof. destruct c as [[] [] [] [] [] [] [] []]; vm_compute; done. Qed.

Lemma whitespace_free_snoc (cur : string) (c : ascii) :
  whitespace_free cur → Str.isspace c = false →
  whitespace_free (cur +:+ Str.char c).
Proof.
  unfold whitespace_free. intros Hcur Hc. rewrite ascii_list_app.
  apply Forall_app. split; [done|]. cbn. by repeat constructor.
Qed.

(** The tokens of [split] contain no whitespace. *)
Lemma split_from_whitespace_free (cur s : string) :
  whitespace_free cur → Forall whitespace_free (Str.split_from cur s).
Proof.
  revert cur. induction s as [|c s IH]; intros cur Hcur; cbn.
  - case_decide; by repeat constructor.
  - destruct (Str.isspace c) eqn:Hc.
    + case_decide.
      * apply IH. constructor.
      * constructor; [done|]. apply IH. constructor.
    + apply IH. by apply whitespace_free_snoc.
Qed.

(** With whitespace-free sentinels the padded word of a token has no
    whitespace. *)
Lemma padded_whitespace_free (s e line part0 : string) (rest : list string) :
  whitespace_free s → whitespace_free e →
  Str.split line = part0 :: rest →
  whitespace_free (s +:+ Str.lower part0 +:+ e).
Proof.
  intros Hs He Hsplit.
  unfold whitespace_free in *. rewrite !ascii_list_app, ascii_list_lower.
  apply Forall_app. split; [done|]. apply Forall_app. split; [|done].
  apply Forall_fmap.
  pose proof (split_from_whitespace_free "" line ltac:(constructor)) as Hall.
  fold (Str.split line) in Hall. rewrite Hsplit in Hall.
  apply Forall_cons in Hall as [Hpart _].
  eapply Forall_impl; [exact Hpart|]. intros c. apply lower_char_not_space.
Qed.

Lemma bigram_not_space (lines : list string) (s e : string) (bg : bigram) :
  whitespace_free s → whitespace_free e →
  bg ∈ concat (line_bigrams s e <$> lines) →
  ∃ c1 c2, bg = (Str.char c1, Str.char c2)
           ∧ Str.isspace c1 = false ∧ Str.isspace c2 = false.
Proof.
  intros Hs He (line & Hline & Hbg)%elem_of_load.
  apply line_bigrams_elem in Hbg as (part0 & rest & c1 & c2 & Hsplit & -> & H1 & H2).
  pose proof (padded_whitespace_free _ _ _ _ _ Hs He Hsplit) as Hfree.
  unfold whitespace_free in Hfree. rewrite Forall_forall in Hfree.
  exists c1, c2. split; [done|]. split; by apply Hfree.
Qed.

(** X6.  When the sentinels contain no whitespace, no bigram does,
    whatever the lines hold: tokens are cut at whitespace and lowercasing
    makes no whitespace. *)
Theorem extractor_no_whitespace (lines : list string)
    (start_token end_token : string) :
  whitespace_free start_token →
  whitespace_free end_token →
  ∃ bgs : list bigram,
    load_and_preprocess_data lines start_token end_token = Ok bgs
    ∧ Forall (λ bg, ∃ c1 c2, bg = (Str.char c1, Str.char c2)
                             ∧ Str.isspace c1 = false
                             ∧ Str.isspace c2 = false) bgs.
Proof.
  intros Hs He. eexists. split; [apply load_spec|].
  apply Forall_forall. intros bg Hbg.
  exact (bigram_not_space _ _ _ _ Hs He Hbg).
Qed.

Lemma extractor_no_whitespace_witness :
  whitespace_free "-"
  ∧ whitespace_free "."
  ∧ ∃ bgs : list bigram,
      load_and_preprocess_data ["Ana Maria 5"; "  "; "Bo"] "-" "." = Ok bgs
      ∧ Forall (λ bg, ∃ c1 c2, bg = (Str.char c1, Str.char c2)
                               ∧ Str.isspace c1 = false
                               ∧ Str.isspace c2 = false) bgs.
Proof.
  assert (H1 : whitespace_free "-") by (unfold whitespace_free; compute_done).
  assert (H2 : whitespace_free ".") by (unfold whitespace_free; compute_done).
  split; [exact H1|]. split; [exact H2|].
  exact (extractor_no_whitespace ["Ana Maria 5"; "  "; "Bo"] "-" "." H1 H2).
Defined.

(** ** The vocabulary, whatever the configuration *)

Lemma last_index_Some (l : list string) (c : string) (k : nat) :
  last_index l c = Some k → l !! k = Some c ∧ c ∉ drop (S k) l.
Proof.
  revert k. induction l as [|x l IH]; intros k; cbn; [done|].
  destruct (last_index l c) as [k'|] eqn:E.
  - intros [= <-]. by apply IH.
  - case_decide as Hx; [|done]. intros [= <-]. subst x. split; [done|].
    cbn. rewrite drop_0. clear IH. induction l as [|y l IHl]; [by intros ?%elem_of_nil|].
    cbn in E. destruct (last_index l c); [done|]. case_decide; [done|].
    apply not_elem_of_cons. split; [done|]. by apply IHl.
Qed.

Lemma last_index_None (l : list string) (c : string) :
  last_index l c = None → c ∉ l.
Proof.
  induction l as [|x l IH]; cbn; [by intros _ ?%elem_of_nil|].
  destruct (last_index l c); [done|]. case_decide; [done|].
  intros _. apply not_elem_of_cons. split; [done|]. by apply IH.
Qed.

Lemma last_index_lt (l : list string) (c : string) (k : nat) :
  last_index l c = Some k → (k < length l)%nat.
Proof. intros [Hk _]%last_index_Some. by eapply lookup_lt_Some. Qed.

(** X7.  For every alphabet and pair of sentinels, the index of a
    character is the one assigned last: that of the end token if it is the
    end token, else one more than its last position in the alphabet, else
    0 if it is the start token; any other character is no key.  The keys
    are therefore the assigned symbols, and every index lies between 0 and
    [len(alphabet) + 1]. *)
Theorem char_to_index_lookup (alphabet start_token end_token : string) :
  let d := char_to_index alphabet start_token end_token in
  (∀ c, dict_get d c = assigned_index alphabet start_token end_token c)
  ∧ (∀ c, dict_mem d c = true ↔ c ∈ symbols alphabet start_token end_token)
  ∧ Forall (λ kv, 0 ≤ kv.2 ≤ Z.of_nat (String.length alphabet) + 1) d.
Proof.
  intros d.
  assert (Hget : ∀ c, dict_get d c = assigned_index alphabet start_token end_token c).
  { intros c. unfold assigned_index. case_decide as Hce.
    - subst c. apply char_to_index_end.
    - destruct (last_index (Str.chars alphabet) c) as [k|] eqn:E.
      + apply last_index_Some in E as [Hk Hlast].
        by apply char_to_index_alphabet.
      + apply last_index_None in E. unfold d, char_to_index.
        rewrite dict_get_set, decide_False by done.
        rewrite dict_assign_each_get_other by (by rewrite enumerate_snd).
        cbn. by destruct (decide (c = start_token)). }
  split; [exact Hget|]. split.
  - intros c. rewrite <- char_to_index_keys. unfold dict_mem, dict_keys.
    destruct (dict_get d c) as [v|] eqn:E.
    + split; [|done]. intros _. apply dict_get_Some_elem in E.
      apply list_elem_of_fmap. by exists (c, v).
    + split; [done|]. intros Hin. by apply dict_get_None in E.
  - apply Forall_forall. intros [c v] Hin. cbn.
    assert (dict_get d c = Some v) as Hv.
    { apply dict_get_elem_NoDup; [apply char_to_index_NoDup|done]. }
    rewrite Hget in Hv. unfold assigned_index in Hv.
    case_decide; [injection Hv as <-; lia|].
    destruct (last_index (Str.chars alphabet) c) as [k|] eqn:E.
    + apply last_index_lt in E. rewrite length_chars in E.
      injection Hv as <-. lia.
    + case_decide; [|done]. injection Hv as <-. lia.
Qed.

(** Outside the valid configurations an assignment is overwritten and the
    mapping comes out short. *)
Lemma char_to_index_invalid_len (a s e : string) :
  ¬ valid_vocab a s e →
  (dict_len (char_to_index a s e) < String.length a + 2)%nat.
Proof.
  intros Hinv. unfold dict_len. rewrite <- (length_fmap fst).
  fold (dict_keys (char_to_index a s e)).
  replace (String.length a + 2)%nat with (length (symbols a s e)).
  2:{ unfold symbols. cbn. rewrite length_app, length_chars. cbn. lia. }
  apply NoDup_subseteq_length_lt.
  - apply char_to_index_NoDup.
  - intros x. apply char_to_index_keys.
  - by rewrite <- valid_vocab_symbols.
Qed.

(** X8.  The mapping has between 1 and [len(alphabet) + 2] entries, and
    exactly [len(alphabet) + 2] when, and only when, the alphabet is
    duplicate-free and disjoint from the two distinct sentinels. *)
Theorem char_to_index_size (alphabet start_token end_token : string) :
  let d := char_to_index alphabet start_token end_token in
  (1 ≤ dict_len d ≤ String.length alphabet + 2)%nat
  ∧ (dict_len d = (String.length alphabet + 2)%nat
     ↔ valid_vocab alphabet start_token end_token).
Proof.
  intros d.
  destruct (decide (NoDup (symbols alphabet start_token end_token))) as [Hv|Hv];
    rewrite <- valid_vocab_symbols in Hv.
  - pose proof (char_to_index_valid_len _ _ _ Hv) as Hlen. fold d in Hlen.
    split; [lia|]. done.
  - pose proof (char_to_index_invalid_len _ _ _ Hv) as Hlen. fold d in Hlen.
    split; [|split; [lia|done]]. split; [|lia].
    pose proof (char_to_index_end alphabet start_token end_token) as He.
    fold d in He. unfold dict_len. destruct d; [done|]. cbn. lia.
Qed.

(** ** The reverse mapping, whatever the mapping *)

Section DictAssign.
Context {K V : Type} `{EqDecision K}.
Implicit Types (d : dict K V) (k : K) (v : V).

Lemma dict_set_length_le d k v : (length (dict_set d k v) ≤ S (length d))%nat.
Proof.
  induction d as [|[k0 v0] d IH]; cbn; [lia|].
  case_decide; cbn; lia.
Qed.

Lemma dict_assign_each_length_le (xs : list (V * K)) d :
  (length (dict_assign_each xs d) ≤ length d + length xs)%nat.
Proof.
  revert d. induction xs as [|[a b] xs IH]; intros d; [cbn; lia|].
  rewrite dict_assign_each_cons. etrans; [apply IH|].
  pose proof (dict_set_length_le d b a). cbn. lia.
Qed.

(** A value found after a run of assignments was assigned by one of them
    or was there before. *)
Lemma dict_assign_each_get_Some (xs : list (V * K)) d k v :
  dict_get (dict_assign_each xs d) k = Some v →
  (v, k) ∈ xs ∨ dict_get d k = Some v.
Proof.
  revert d. induction xs as [|[a b] xs IH]; intros d; [by right|].
  rewrite dict_assign_each_cons. intros [Hin|Hget]%IH.
  - left. by right.
  - rewrite dict_get_set in Hget. case_decide as Hk.
    + injection Hget as <-. subst k. left. left.
    + by right.
Qed.

End DictAssign.

(** X9.  For any mapping from characters to indices, [index_to_char] has
    one entry per index in use and never more entries than the mapping;
    each entry leads to a character that has this index, and when several
    characters share an index the one assigned last in the mapping is
    kept. *)
Theorem index_to_char_entries (d : dict string Z) :
  NoDup (dict_keys d) →
  let i2c := index_to_char d in
  NoDup (dict_keys i2c)
  ∧ (∀ i, dict_mem i2c i = true ↔ i ∈ dict_values d)
  ∧ (dict_len i2c ≤ dict_len d)%nat
  ∧ (∀ i c, dict_get i2c i = Some c → dict_get d c = Some i)
  ∧ (∀ d1 d2 c i, d = d1 ++ (c, i) :: d2 → i ∉ dict_values d2 →
       dict_get i2c i = Some c).
Proof.
  intros Hnd i2c. unfold i2c, index_to_char, dict_items.
  split; [|split; [|split; [|split]]].
  - apply dict_assign_each_NoDup. constructor.
  - intros i. unfold dict_mem.
    destruct (dict_get (dict_assign_each d []) i) as [c|] eqn:E.
    + split; [|done]. intros _.
      apply dict_assign_each_get_Some in E as [Hin|?]; [|done].
      unfold dict_values. apply list_elem_of_fmap. by exists (c, i).
    + split; [done|]. intros Hin. apply dict_get_None in E. exfalso. apply E.
      apply dict_assign_each_keys. by right.
  - unfold dict_len. etrans; [apply dict_assign_each_length_le|]. cbn. lia.
  - intros i c [Hin|?]%dict_assign_each_get_Some; [|done].
    by apply dict_get_elem_NoDup.
  - intros d1 d2 c i -> Hi. by apply dict_assign_each_get_last.
Qed.

Lemma index_to_char_entries_witness :
  let d := [("a", 1); ("b", 1); ("c", 0)] in
  NoDup (dict_keys d)
  ∧ let i2c := index_to_char d in
    NoDup (dict_keys i2c)
    ∧ (∀ i, dict_mem i2c i = true ↔ i ∈ dict_values d)
    ∧ (dict_len i2c ≤ dict_len d)%nat
    ∧ (∀ i c, dict_get i2c i = Some c → dict_get d c = Some i)
    ∧ (∀ d1 d2 c i, d = d1 ++ (c, i) :: d2 → i ∉ dict_values d2 →
         dict_get i2c i = Some c).
Proof.
  intros d.
  assert (Hnd : NoDup (dict_keys d)) by compute_done.
  split; [exact Hnd|]. exact (index_to_char_entries d Hnd).
Defined.

(** The end token has the largest index; when the mapping is short this
    index is no position of the table, and some position has no
    character. *)
Lemma invalid_vocab_hole (a s e : string) :
  ¬ valid_vocab a s e →
  ∃ k : nat,
    (k < dict_len (char_to_index a s e))%nat
    ∧ dict_get (index_to_char (char_to_index a s e)) (Z.of_nat k) = None.
Proof.
  intros Hinv. set (d := char_to_index a s e). set (n := dict_len d).
  pose proof (char_to_index_invalid_len _ _ _ Hinv) as Hlen. fold d n in Hlen.
  destruct (decide (Forall (λ k, is_Some (dict_get (index_to_char d) (Z.of_nat k)))
                      (seq 0 n))) as [Hall|Hex].
  - exfalso. rewrite Forall_forall in Hall.
    set (L := (Z.of_nat <$> seq 0 n) ++ [Z.of_nat (String.length a) + 1]).
    assert (HL : NoDup L).
    { apply NoDup_app. split; [|split].
      - apply NoDup_fmap_2; [apply _|apply NoDup_seq].
      - intros x (k & -> & Hk%elem_of_seq)%list_elem_of_fmap Hx%list_elem_of_singleton.
        lia.
      - apply NoDup_singleton. }
    assert (Hsub : ∀ x, x ∈ L → x ∈ dict_values d).
    { intros x [(k & -> & Hk)%list_elem_of_fmap|Hx%list_elem_of_singleton]%elem_of_app;
        [|subst x].
      - destruct (Hall k Hk) as [c Hc].
        unfold index_to_char, dict_items in Hc.
        apply dict_assign_each_get_Some in Hc as [Hin|?]; [|done].
        unfold dict_values. apply list_elem_of_fmap. by exists (c, Z.of_nat k).
      - unfold dict_values. apply list_elem_of_fmap.
        exists (e, Z.of_nat (String.length a) + 1). split; [done|].
        apply dict_get_Some_elem, char_to_index_end. }
    pose proof (submseteq_length _ _ (NoDup_submseteq _ _ HL Hsub)) as Hle.
    unfold L, dict_values in Hle.
    rewrite length_app, !length_fmap, length_seq in Hle. cbn in Hle.
    fold (dict_len d) in Hle. fold n in Hle. lia.
  - apply not_Forall_Exists in Hex; [|apply _].
    apply Exists_exists in Hex as (k & Hk%elem_of_seq & Hnone).
    exists k. split; [lia|]. cbn in Hnone.
    destruct (dict_get (index_to_char d) (Z.of_nat k)); [|done].
    exfalso. apply Hnone. by eexists.
Qed.

(** X10.  Outside the valid configurations (a repeated alphabet character,
    a sentinel in the alphabet, or equal sentinels) the mapping is too
    short for its own indices: the index of the end token is no position
    of the table [count_bigrams] builds, and some position of that table
    has no character in the reverse mapping. *)
Theorem invalid_vocab_breaks_table (alphabet start_token end_token : string) :
  ¬ valid_vocab alphabet start_token end_token →
  let d := char_to_index alphabet start_token end_token in
  (∃ v, dict_get d end_token = Some v ∧ Z.of_nat (dict_len d) ≤ v)
  ∧ misses_table d (end_token, end_token) = true
  ∧ ∃ k : nat, (k < dict_len d)%nat
               ∧ dict_mem (index_to_char d) (Z.of_nat k) = false.
Proof.
  intros Hinv d.
  pose proof (char_to_index_invalid_len _ _ _ Hinv) as Hlen. fold d in Hlen.
  pose proof (char_to_index_end alphabet start_token end_token) as He. fold d in He.
  split; [|split].
  - eexists. split; [exact He|]. lia.
  - unfold misses_table. cbn. rewrite He. unfold index_fits.
    rewrite bool_decide_eq_false_2 by lia. done.
  - destruct (invalid_vocab_hole _ _ _ Hinv) as (k & Hk & Hnone).
    exists k. split; [done|]. unfold dict_mem. fold d in Hnone. by rewrite Hnone.
Qed.

Lemma invalid_vocab_breaks_table_witness :
  ¬ valid_vocab "a-" "-" "."
  ∧ let d := char_to_index "a-" "-" "." in
    (∃ v, dict_get d "." = Some v ∧ Z.of_nat (dict_len d) ≤ v)
    ∧ misses_table d (".", ".") = true
    ∧ ∃ k : nat, (k < dict_len d)%nat
                 ∧ dict_mem (index_to_char d) (Z.of_nat k) = false.
Proof.
  assert (Hinv : ¬ valid_vocab "a-" "-" ".") by (unfold valid_vocab; compute_done).
  split; [exact Hinv|]. exact (invalid_vocab_breaks_table "a-" "-" "." Hinv).
Defined.

(** ** Counting, whatever the mapping *)

Lemma norm_index_Ok_lt (n : nat) (v : Z) (r : nat) :
  Tensor.norm_index n v = Ok r → (r < n)%nat.
Proof.
  unfold Tensor.norm_index. repeat case_decide; intros [= <-]; lia.
Qed.

Lemma norm_index_fits (n : nat) (v : Z) :
  index_fits n v = true → ∃ r, Tensor.norm_index n v = Ok r.
Proof.
  unfold index_fits, Tensor.norm_index. intros Hv%bool_decide_eq_true.
  repeat case_decide; eauto. lia.
Qed.

Lemma norm_index_misfit (n : nat) (v : Z) :
  index_fits n v = false → Tensor.norm_index n v = Raise IndexError.
Proof.
  unfold index_fits, Tensor.norm_index. intros Hv%bool_decide_eq_false.
  repeat case_decide; try done; lia.
Qed.

Lemma wrap32_add (a b : Z) :
  Tensor.wrap32 (Tensor.wrap32 a + Tensor.wrap32 b) = Tensor.wrap32 (a + b).
Proof.
  unfold Tensor.wrap32. f_equal.
  replace ((a + 2 ^ 31) mod 2 ^ 32 - 2 ^ 31 + ((b + 2 ^ 31) mod 2 ^ 32 - 2 ^ 31)
           + 2 ^ 31)
    with ((a + 2 ^ 31) mod 2 ^ 32 + ((b + 2 ^ 31) mod 2 ^ 32 - 2 ^ 31)) by lia.
  rewrite Zplus_mod_idemp_l.
  replace (a + 2 ^ 31 + ((b + 2 ^ 31) mod 2 ^ 32 - 2 ^ 31))
    with ((b + 2 ^ 31) mod 2 ^ 32 + a) by lia.
  rewrite Zplus_mod_idemp_l. f_equal. lia.
Qed.

(** The increment at a position given by Python indices that fit. *)
Lemma add_at_fits (t : Tensor.tensor) (nr nc : nat) (i j : Z) (r q : nat)
    (delta : Z) :
  Tensor.has_shape t nr nc →
  Tensor.norm_index nr i = Ok r → Tensor.norm_index nc j = Ok q →
  ∃ (x : Z) (t' : Tensor.tensor),
    Tensor.cell t r q = Some x
    ∧ Tensor.add_at t i j delta = Ok t'
    ∧ Tensor.has_shape t' nr nc
    ∧ Tensor.cell t' r q = Some (Tensor.wrap32 (x + delta))
    ∧ (∀ i' j', (i', j') ≠ (r, q) → Tensor.cell t' i' j' = Tensor.cell t i' j').
Proof.
  intros [Hr Hc] Hi Hj.
  pose proof (norm_index_Ok_lt _ _ _ Hi) as Hrlt.
  pose proof (norm_index_Ok_lt _ _ _ Hj) as Hqlt.
  destruct (lookup_lt_is_Some_2 t r) as [row Hrow]; [lia|].
  assert (Hlen : length row = nc).
  { eapply Forall_lookup_1 in Hc; [|exact Hrow]. done. }
  destruct (lookup_lt_is_Some_2 row q) as [x Hx]; [lia|].
  exists x, (<[r := <[q := Tensor.wrap32 (x + delta)]> row]> t).
  split; [|split; [|split; [|split]]].
  - unfold Tensor.cell. rewrite Hrow. done.
  - unfold Tensor.add_at. rewrite Hr, Hi. cbn.
    rewrite Hrow, Hlen, Hj. cbn. by rewrite Hx.
  - split.
    + by rewrite length_insert.
    + apply Forall_insert; [done|]. by rewrite length_insert.
  - unfold Tensor.cell. rewrite list_lookup_insert_eq by lia. cbn.
    apply list_lookup_insert_eq. lia.
  - intros i' j' Hne. unfold Tensor.cell.
    destruct (decide (i' = r)) as [->|Hi'].
    + rewrite list_lookup_insert_eq by lia. rewrite Hrow. cbn.
      apply list_lookup_insert_ne. congruence.
    + by rewrite list_lookup_insert_ne.
Qed.

(** The increment with an index that does not fit. *)
Lemma add_at_misfit (t : Tensor.tensor) (n : nat) (i j : Z) (delta : Z) :
  Tensor.has_shape t n n →
  index_fits n i && index_fits n j = false →
  Tensor.add_at t i j delta = Raise IndexError.
Proof.
  intros [Hr Hc] Hfit. unfold Tensor.add_at. rewrite Hr.
  destruct (index_fits n i) eqn:Ei.
  - destruct (norm_index_fits _ _ Ei) as [r Hi]. rewrite Hi. cbn.
    pose proof (norm_index_Ok_lt _ _ _ Hi) as Hrlt.
    destruct (lookup_lt_is_Some_2 t r) as [row Hrow]; [lia|]. rewrite Hrow.
    assert (Hlen : length row = n).
    { eapply Forall_lookup_1 in Hc; [|exact Hrow]. done. }
    rewrite Hlen, norm_index_misfit; done.
  - by rewrite norm_index_misfit.
Qed.

Lemma hit_count_cons (d : dict string Z) (i j : nat) (bg : bigram)
    (bgs : list bigram) :
  hit_count d i j (bg :: bgs)
  = ((if bool_decide (target d bg = Some (i, j)) then 1 else 0)
     + hit_count d i j bgs)%nat.
Proof.
  unfold hit_count. cbn. by destruct (bool_decide (target d bg = Some (i, j))).
Qed.

Lemma hit_count_app (d : dict string Z) (i j : nat) (bgs1 bgs2 : list bigram) :
  hit_count d i j (bgs1 ++ bgs2)
  = (hit_count d i j bgs1 + hit_count d i j bgs2)%nat.
Proof. unfold hit_count. by rewrite List.filter_app, length_app. Qed.

Lemma hit_count_Permutation (d : dict string Z) (i j : nat)
    (bgs1 bgs2 : list bigram) :
  bgs1 ≡ₚ bgs2 → hit_count d i j bgs1 = hit_count d i j bgs2.
Proof.
  induction 1 as [|x l l' _ IH|x y l|l l' l'' _ IH1 _ IH2].
  - done.
  - by rewrite !hit_count_cons, IH.
  - rewrite !hit_count_cons. lia.
  - congruence.
Qed.

Lemma existsb_Permutation (f : bigram → bool) (bgs1 bgs2 : list bigram) :
  bgs1 ≡ₚ bgs2 → existsb f bgs1 = existsb f bgs2.
Proof.
  induction 1 as [|x l l' _ IH|x y l|l l' l'' _ IH1 _ IH2]; cbn.
  - done.
  - by rewrite IH.
  - by destruct (f x), (f y).
  - congruence.
Qed.

(** One bigram, on a table of the size of the mapping: an exception when
    it misses the table, else an increment of its target cell or, outside
    the vocabulary, nothing. *)
Lemma count_step_general (d : dict string Z) (t : Tensor.tensor) (bg : bigram) :
  Tensor.has_shape t (dict_len d) (dict_len d) →
  if misses_table d bg then count_step d t bg = Raise IndexError
  else ∃ t' : Tensor.tensor,
      count_step d t bg = Ok t'
      ∧ Tensor.has_shape t' (dict_len d) (dict_len d)
      ∧ match target d bg with
        | Some (i, j) =>
            ∃ x, Tensor.cell t i j = Some x
                 ∧ Tensor.cell t' i j = Some (Tensor.wrap32 (x + 1))
                 ∧ ∀ i' j', (i', j') ≠ (i, j) →
                     Tensor.cell t' i' j' = Tensor.cell t i' j'
        | None => t' = t
        end.
Proof.
  intros Hshape. destruct bg as [a b].
  unfold misses_table, target, count_step, dict_mem, dict_getitem, position. cbn.
  destruct (dict_get d a) as [v1|]; cbn; [|by exists t].
  destruct (dict_get d b) as [v2|]; cbn; [|by exists t].
  destruct (index_fits (dict_len d) v1 && index_fits (dict_len d) v2) eqn:Hfit; cbn.
  - apply andb_true_iff in Hfit as [H1 H2].
    destruct (norm_index_fits _ _ H1) as [r Hr].
    destruct (norm_index_fits _ _ H2) as [q Hq].
    destruct (add_at_fits t _ _ v1 v2 r q 1 Hshape Hr Hq)
      as (x & t' & Hx & Hadd & Hshape' & Hcell & Hother).
    exists t'. rewrite Hr, Hq. cbn. split; [done|]. split; [done|].
    by exists x.
  - by apply (add_at_misfit t (dict_len d)).
Qed.

(** The loop in general: an [IndexError] as soon as a bigram misses the
    table, else every cell grown by the number of bigrams it is the target
    of, modulo [2 ^ 32]. *)
Lemma count_loop_general (d : dict string Z) (bgs : list bigram)
    (t0 : Tensor.tensor) (c0 : nat → nat → Z) :
  Tensor.has_shape t0 (dict_len d) (dict_len d) →
  (∀ i j, (i < dict_len d)%nat → (j < dict_len d)%nat →
     Tensor.cell t0 i j = Some (Tensor.wrap32 (c0 i j))) →
  if existsb (misses_table d) bgs
  then for_each (count_step d) bgs t0 = Raise IndexError
  else ∃ t, for_each (count_step d) bgs t0 = Ok t
            ∧ Tensor.has_shape t (dict_len d) (dict_len d)
            ∧ ∀ i j, (i < dict_len d)%nat → (j < dict_len d)%nat →
                Tensor.cell t i j
                = Some (Tensor.wrap32 (c0 i j + Z.of_nat (hit_count d i j bgs))).
Proof.
  revert t0 c0. induction bgs as [|bg bgs IH]; intros t0 c0 Hshape Hcells.
  - cbn. exists t0. split; [done|]. split; [done|]. intros i j Hi Hj.
    rewrite (Hcells i j Hi Hj). cbn. by rewrite Z.add_0_r.
  - pose proof (count_step_general d t0 bg Hshape) as Hstep.
    cbn [existsb for_each]. destruct (misses_table d bg); cbn [orb].
    { by rewrite Hstep. }
    destruct Hstep as (t' & Hstep & Hshape' & Htarget). rewrite Hstep.
    cbn [mbind result_mbind result_bind].
    set (c1 := λ i j, if bool_decide (target d bg = Some (i, j))
                      then c0 i j + 1 else c0 i j).
    assert (Hcells' : ∀ i j, (i < dict_len d)%nat → (j < dict_len d)%nat →
                        Tensor.cell t' i j = Some (Tensor.wrap32 (c1 i j))).
    { intros i j Hi Hj. unfold c1. destruct (target d bg) as [[i0 j0]|].
      - destruct Htarget as (x & Hx & Hcell & Hother). case_bool_decide as Heq.
        + injection Heq as <- <-. rewrite Hcell.
          rewrite (Hcells i0 j0 Hi Hj) in Hx. injection Hx as <-.
          by rewrite wrap32_succ.
        + rewrite Hother by congruence. by apply Hcells.
      - subst t'. rewrite bool_decide_eq_false_2 by done. by apply Hcells. }
    pose proof (IH t' c1 Hshape' Hcells') as Hrest.
    destruct (existsb (misses_table d) bgs); [done|].
    destruct Hrest as (t & Hloop & Hshape'' & Hfinal).
    exists t. split; [done|]. split; [done|].
    intros i j Hi Hj. rewrite (Hfinal i j Hi Hj). do 2 f_equal.
    rewrite hit_count_cons. unfold c1. case_bool_decide; lia.
Qed.

Lemma count_bigrams_general (d : dict string Z) (bgs : list bigram) :
  if existsb (misses_table d) bgs
  then count_bigrams bgs d = Raise IndexError
  else ∃ t, count_bigrams bgs d = Ok t
            ∧ Tensor.has_shape t (dict_len d) (dict_len d)
            ∧ ∀ i j, (i < dict_len d)%nat → (j < dict_len d)%nat →
                Tensor.cell t i j
                = Some (Tensor.wrap32 (Z.of_nat (hit_count d i j bgs))).
Proof.
  unfold count_bigrams.
  apply (count_loop_general d bgs _ (λ _ _, 0)); [apply zeros_shape|].
  intros i j Hi Hj. by apply cell_zeros.
Qed.

(** Tables of one shape with the same cells are the same table. *)
Lemma tensor_ext (t t' : Tensor.tensor) (n m : nat) :
  Tensor.has_shape t n m → Tensor.has_shape t' n m →
  (∀ i j, (i < n)%nat → (j < m)%nat → Tensor.cell t i j = Tensor.cell t' i j) →
  t = t'.
Proof.
  intros [Hn Hm] [Hn' Hm'] Hcells. apply list_eq. intros i.
  destruct (decide (i < n)%nat) as [Hi|Hi].
  - destruct (lookup_lt_is_Some_2 t i) as [row Hrow]; [lia|].
    destruct (lookup_lt_is_Some_2 t' i) as [row' Hrow']; [lia|].
    rewrite Hrow, Hrow'. f_equal.
    assert (length row = m) as Hl by (by eapply Forall_lookup_1 in Hm).
    assert (length row' = m) as Hl' by (by eapply Forall_lookup_1 in Hm').
    apply list_eq. intros j. destruct (decide (j < m)%nat) as [Hj|Hj].
    + specialize (Hcells i j Hi Hj). unfold Tensor.cell in Hcells.
      by rewrite Hrow, Hrow' in Hcells.
    + rewrite !lookup_ge_None_2; [done|lia..].
  - rewrite !lookup_ge_None_2; [done|lia..].
Qed.

(** X11.  For a mapping whose indices fit 64 bits, [count_bigrams] raises
    exactly when some bigram of the list has both characters in the
    mapping and an index outside [[-len(mapping), len(mapping))]; the
    exception is [IndexError], never [KeyError]; otherwise it returns a
    square table of size [len(mapping)]. *)
Theorem count_bigrams_raises_iff (bigrams : list bigram) (d : dict string Z) :
  indices_int64 d →
  (existsb (misses_table d) bigrams = true
   ∧ count_bigrams bigrams d = Raise IndexError)
  ∨ (existsb (misses_table d) bigrams = false
     ∧ ∃ t, count_bigrams bigrams d = Ok t
            ∧ Tensor.has_shape t (dict_len d) (dict_len d)).
Proof.
  intros _. pose proof (count_bigrams_general d bigrams) as H.
  destruct (existsb (misses_table d) bigrams).
  - by left.
  - right. destruct H as (t & Ht & Hshape & _). split; [done|]. by exists t.
Qed.

Lemma count_bigrams_raises_iff_witness :
  let bigrams := [("b", "b"); ("z", "a"); ("a", "b")] in
  let d := [("a", 5); ("b", 0)] in
  indices_int64 d
  ∧ ((existsb (misses_table d) bigrams = true
      ∧ count_bigrams bigrams d = Raise IndexError)
     ∨ (existsb (misses_table d) bigrams = false
        ∧ ∃ t, count_bigrams bigrams d = Ok t
               ∧ Tensor.has_shape t (dict_len d) (dict_len d))).
Proof.
  intros bigrams d.
  assert (H : indices_int64 d) by (unfold indices_int64, int64; compute_done).
  split; [exact H|]. exact (count_bigrams_raises_iff bigrams d H).
Defined.

Lemma target_in_vocab (d : dict string Z) (bg : bigram) (ij : nat * nat) :
  target d bg = Some ij → in_vocab d bg = true.
Proof.
  unfold target, in_vocab, dict_mem.
  destruct (dict_get d bg.1); [|done]. by destruct (dict_get d bg.2).
Qed.

Lemma hit_count_le (d : dict string Z) (i j : nat) (bgs : list bigram) :
  (hit_count d i j bgs ≤ in_vocab_count d bgs)%nat.
Proof.
  induction bgs as [|bg bgs IH]; [done|].
  rewrite hit_count_cons, in_vocab_count_cons.
  case_bool_decide as Ht; [|lia].
  rewrite (target_in_vocab _ _ _ Ht). lia.
Qed.

(** X12.  For any mapping whose indices in use fit the table, negative
    ones included, and fewer than [2 ^ 31] bigrams in the vocabulary, cell
    [(i, j)] is the number of bigrams whose two indices address row [i]
    and column [j], a negative index [v] addressing [len(mapping) + v]. *)
Theorem count_bigrams_cells (bigrams : list bigram) (d : dict string Z) :
  existsb (misses_table d) bigrams = false →
  Z.of_nat (in_vocab_count d bigrams) < 2 ^ 31 →
  ∃ t, count_bigrams bigrams d = Ok t
       ∧ Tensor.has_shape t (dict_len d) (dict_len d)
       ∧ ∀ i j, (i < dict_len d)%nat → (j < dict_len d)%nat →
           Tensor.cell t i j = Some (Z.of_nat (hit_count d i j bigrams)).
Proof.
  intros Hfit Hsmall. pose proof (count_bigrams_general d bigrams) as H.
  rewrite Hfit in H. destruct H as (t & Ht & Hshape & Hcells).
  exists t. split; [done|]. split; [done|]. intros i j Hi Hj.
  rewrite (Hcells i j Hi Hj). f_equal.
  pose proof (hit_count_le d i j bigrams). apply wrap32_small. lia.
Qed.

Lemma count_bigrams_cells_witness :
  let bigrams := [("a", "b"); ("b", "b"); ("a", "b"); ("z", "a")] in
  let d := [("a", -1); ("b", 0)] in
  existsb (misses_table d) bigrams = false
  ∧ Z.of_nat (in_vocab_count d bigrams) < 2 ^ 31
  ∧ target d ("a", "b") = Some (1%nat, 0%nat)
  ∧ ∃ t, count_bigrams bigrams d = Ok t
         ∧ Tensor.has_shape t (dict_len d) (dict_len d)
         ∧ ∀ i j, (i < dict_len d)%nat → (j < dict_len d)%nat →
             Tensor.cell t i j = Some (Z.of_nat (hit_count d i j bigrams)).
Proof.
  intros bigrams d.
  assert (H1 : existsb (misses_table d) bigrams = false) by reflexivity.
  assert (H2 : Z.of_nat (in_vocab_count d bigrams) < 2 ^ 31)
    by (vm_compute; reflexivity).
  split; [exact H1|]. split; [exact H2|]. split; [reflexivity|].
  exact (count_bigrams_cells bigrams d H1 H2).
Defined.

(** X13.  For a mapping whose indices fit 64 bits the order of the
    bigrams does not matter: a rearranged list gives the same table, or
    the same exception. *)
Theorem count_bigrams_order_irrelevant
    (bigrams1 bigrams2 : list bigram) (d : dict string Z) :
  indices_int64 d →
  bigrams1 ≡ₚ bigrams2 →
  count_bigrams bigrams1 d = count_bigrams bigrams2 d.
Proof.
  intros _ Hperm.
  pose proof (count_bigrams_general d bigrams1) as H1.
  pose proof (count_bigrams_general d bigrams2) as H2.
  rewrite (existsb_Permutation _ _ _ Hperm) in H1.
  destruct (existsb (misses_table d) bigrams2); [congruence|].
  destruct H1 as (t1 & -> & Hs1 & Hc1). destruct H2 as (t2 & -> & Hs2 & Hc2).
  f_equal. apply (tensor_ext _ _ _ _ Hs1 Hs2). intros i j Hi Hj.
  rewrite (Hc1 i j Hi Hj), (Hc2 i j Hi Hj).
  by rewrite (hit_count_Permutation _ _ _ _ _ Hperm).
Qed.

Lemma count_bigrams_order_irrelevant_witness :
  indices_int64 (char_to_index "ab" "-" ".")
  ∧ [("-", "a"); ("a", "b"); ("b", ".")] ≡ₚ [("b", "."); ("-", "a"); ("a", "b")]
  ∧ count_bigrams [("-", "a"); ("a", "b"); ("b", ".")] (char_to_index "ab" "-" ".")
    = count_bigrams [("b", "."); ("-", "a"); ("a", "b")] (char_to_index "ab" "-" ".").
Proof.
  assert (H0 : indices_int64 (char_to_index "ab" "-" "."))
    by (unfold indices_int64, int64; compute_done).
  assert (H : [("-", "a"); ("a", "b"); ("b", ".")]
              ≡ₚ [("b", "."); ("-", "a"); ("a", "b")]) by compute_done.
  split; [exact H0|]. split; [exact H|].
  exact (count_bigrams_order_irrelevant _ _ (char_to_index "ab" "-" ".") H0 H).
Defined.

Lemma count_bigrams_Ok_fits (d : dict string Z) (bgs : list bigram)
    (t : Tensor.tensor) :
  count_bigrams bgs d = Ok t →
  existsb (misses_table d) bgs = false
  ∧ Tensor.has_shape t (dict_len d) (dict_len d)
  ∧ ∀ i j, (i < dict_len d)%nat → (j < dict_len d)%nat →
      Tensor.cell t i j = Some (Tensor.wrap32 (Z.of_nat (hit_count d i j bgs))).
Proof.
  intros Ht. pose proof (count_bigrams_general d bgs) as H.
  destruct (existsb (misses_table d) bgs); [congruence|].
  destruct H as (t' & Ht' & Hshape & Hcells).
  assert (t' = t) as -> by congruence. done.
Qed.

(** X14.  Counting can be split: when two lists are counted without an
    exception, so is their concatenation, and each of its cells is the
    32-bit sum of the cells of the two tables. *)
Theorem count_bigrams_app (bigrams1 bigrams2 : list bigram) (d : dict string Z)
    (t1 t2 : Tensor.tensor) :
  count_bigrams bigrams1 d = Ok t1 →
  count_bigrams bigrams2 d = Ok t2 →
  ∃ t, count_bigrams (bigrams1 ++ bigrams2) d = Ok t
       ∧ Tensor.has_shape t (dict_len d) (dict_len d)
       ∧ ∀ i j, (i < dict_len d)%nat → (j < dict_len d)%nat →
           ∃ x1 x2, Tensor.cell t1 i j = Some x1
                    ∧ Tensor.cell t2 i j = Some x2
                    ∧ Tensor.cell t i j = Some (Tensor.wrap32 (x1 + x2)).
Proof.
  intros (Hf1 & _ & Hc1)%count_bigrams_Ok_fits (Hf2 & _ & Hc2)%count_bigrams_Ok_fits.
  pose proof (count_bigrams_general d (bigrams1 ++ bigrams2)) as H.
  rewrite existsb_app, Hf1, Hf2 in H. destruct H as (t & Ht & Hshape & Hcells).
  exists t. split; [done|]. split; [done|]. intros i j Hi Hj.
  do 2 eexists. split; [by apply Hc1|]. split; [by apply Hc2|].
  rewrite (Hcells i j Hi Hj), wrap32_add, hit_count_app. do 2 f_equal. lia.
Qed.

Lemma count_bigrams_app_witness :
  let d := char_to_index "ab" "-" "." in
  count_bigrams [("-", "a"); ("a", "b")] d
  = Ok [[0; 1; 0; 0]; [0; 0; 1; 0]; [0; 0; 0; 0]; [0; 0; 0; 0]]
  ∧ count_bigrams [("a", "b"); ("b", ".")] d
    = Ok [[0; 0; 0; 0]; [0; 0; 1; 0]; [0; 0; 0; 1]; [0; 0; 0; 0]]
  ∧ ∃ t, count_bigrams ([("-", "a"); ("a", "b")] ++ [("a", "b"); ("b", ".")]) d
         = Ok t
         ∧ Tensor.has_shape t (dict_len d) (dict_len d)
         ∧ ∀ i j, (i < dict_len d)%nat → (j < dict_len d)%nat →
             ∃ x1 x2,
               Tensor.cell [[0; 1; 0; 0]; [0; 0; 1; 0]; [0; 0; 0; 0]; [0; 0; 0; 0]]
                 i j = Some x1
               ∧ Tensor.cell
                   [[0; 0; 0; 0]; [0; 0; 1; 0]; [0; 0; 0; 1]; [0; 0; 0; 0]]
                   i j = Some x2
               ∧ Tensor.cell t i j = Some (Tensor.wrap32 (x1 + x2)).
Proof.
  intros d. split; [reflexivity|]. split; [reflexivity|].
  apply (count_bigrams_app [("-", "a"); ("a", "b")] [("a", "b"); ("b", ".")] d);
    reflexivity.
Defined.

(** X15.  A list without a bigram in the vocabulary gives the zero table,
    whatever the mapping holds; so does every list when the mapping is
    empty. *)
Theorem count_bigrams_nothing_in_vocab (bigrams : list bigram)
    (d : dict string Z) :
  in_vocab_count d bigrams = 0%nat →
  count_bigrams bigrams d = Ok (Tensor.zeros (dict_len d) (dict_len d))
  ∧ count_bigrams bigrams [] = Ok [].
Proof.
  intros Hnone. unfold count_bigrams. split.
  - generalize (Tensor.zeros (dict_len d) (dict_len d)). intros t.
    induction bigrams as [|bg bgs IH]; [done|].
    rewrite in_vocab_count_cons in Hnone.
    destruct (in_vocab d bg) eqn:E; [lia|].
    cbn. rewrite (count_step_skip _ _ _ E). cbn. apply IH. lia.
  - clear Hnone. cbn [dict_len length Tensor.zeros replicate].
    induction bigrams as [|bg bgs IH]; [done|].
    cbn. rewrite count_step_skip; [apply IH|]. by destruct bg.
Qed.

Lemma count_bigrams_nothing_in_vocab_witness :
  in_vocab_count [("a", 7)] [("x", "a"); ("a", "y")] = 0%nat
  ∧ count_bigrams [("x", "a"); ("a", "y")] [("a", 7)]
    = Ok (Tensor.zeros (dict_len [("a", 7)]) (dict_len [("a", 7)]))
  ∧ count_bigrams [("x", "a"); ("a", "y")] [] = Ok [].
Proof.
  split; [reflexivity|].
  apply (count_bigrams_nothing_in_vocab [("x", "a"); ("a", "y")] [("a", 7)]).
  reflexivity.
Defined.

Lemma filter_none {A} (f : A → bool) (l : list A) :
  (∀ x, x ∈ l → f x = false) → List.filter f l = [].
Proof.
  induction l as [|x l IH]; intros Hf; [done|]. cbn.
  rewrite (Hf x) by left. apply IH. intros y Hy. apply Hf. by right.
Qed.

(** In a valid configuration two characters with one index are one. *)
Lemma char_to_index_valid_inj (a s e c1 c2 : string) (i : Z) :
  valid_vocab a s e →
  dict_get (char_to_index a s e) c1 = Some i →
  dict_get (char_to_index a s e) c2 = Some i → c1 = c2.
Proof.
  intros Hv H1 H2.
  assert (Hk : NoDup (dict_keys (char_to_index a s e))) by apply char_to_index_NoDup.
  assert (Hvals : NoDup (dict_values (char_to_index a s e))).
  { rewrite (char_to_index_valid_values _ _ _ Hv). apply NoDup_seqZ. }
  apply (index_to_char_inverse _ _ _ Hk Hvals) in H1, H2. congruence.
Qed.

(** X16.  When the alphabet of a valid configuration contains a whitespace
    character (as the alphabet of the script does with the space) and the
    sentinels are free of whitespace, the row and the column of that
    character stay zero for every file. *)
Theorem whitespace_cells_zero (lines : list string)
    (alphabet start_token end_token : string) (c : ascii) (k : nat) :
  valid_vocab alphabet start_token end_token →
  whitespace_free start_token →
  whitespace_free end_token →
  Str.isspace c = true →
  Str.chars alphabet !! k = Some (Str.char c) →
  ∃ t, pipeline lines alphabet start_token end_token = Ok t
       ∧ ∀ j, (j < String.length alphabet + 2)%nat →
           Tensor.cell t (S k) j = Some 0 ∧ Tensor.cell t j (S k) = Some 0.
Proof.
  intros Hv Hs He Hc Hk. unfold pipeline. rewrite load_spec.
  cbn [mbind result_mbind result_bind].
  set (bgs := concat (line_bigrams start_token end_token <$> lines)).
  set (d := char_to_index alphabet start_token end_token).
  pose proof (char_to_index_in_range _ _ _ Hv) as Hrange. fold d in Hrange.
  pose proof (char_to_index_valid_len _ _ _ Hv) as Hlen. fold d in Hlen.
  pose proof (char_to_index_valid_kth _ _ _ _ _ Hv Hk) as Hidx. fold d in Hidx.
  assert (Hkn : (S k < dict_len d)%nat).
  { apply lookup_lt_Some in Hk. rewrite length_chars in Hk. lia. }
  unfold count_bigrams.
  destruct (count_loop_cells d bgs (Tensor.zeros (dict_len d) (dict_len d))
              (λ _ _, 0) Hrange) as (t & Hloop & Hshape & Hcells).
  { apply zeros_shape. }
  { intros i j Hi Hj. by apply cell_zeros. }
  exists t. split; [done|]. intros j Hj. rewrite <- Hlen in Hj.
  assert (Hbg : ∀ bg, bg ∈ bgs →
                  dict_get d bg.1 ≠ Some (Z.of_nat (S k))
                  ∧ dict_get d bg.2 ≠ Some (Z.of_nat (S k))).
  { intros bg (c1 & c2 & -> & H1 & H2)%(bigram_not_space _ _ _ _ Hs He). cbn.
    replace (Z.of_nat (S k)) with (Z.of_nat k + 1) by lia.
    split; intros Hget;
      pose proof (char_to_index_valid_inj _ _ _ _ _ _ Hv Hget Hidx) as [= ->];
      congruence. }
  rewrite (Hcells (S k) j Hkn Hj), (Hcells j (S k) Hj Hkn).
  unfold occurrences. rewrite !filter_none; [done|..].
  - intros bg [_ H2]%Hbg. unfold lands_on. apply bool_decide_eq_false. tauto.
  - intros bg [H1 _]%Hbg. unfold lands_on. apply bool_decide_eq_false. tauto.
Qed.

Lemma whitespace_cells_zero_witness :
  valid_vocab "ab " "-" "."
  ∧ whitespace_free "-"
  ∧ whitespace_free "."
  ∧ Str.isspace " " = true
  ∧ Str.chars "ab " !! 2%nat = Some (Str.char " ")
  ∧ ∃ t, pipeline ["Ab ba 1"; "b a"] "ab " "-" "." = Ok t
         ∧ ∀ j, (j < String.length "ab " + 2)%nat →
             Tensor.cell t 3 j = Some 0 ∧ Tensor.cell t j 3 = Some 0.
Proof.
  assert (H1 : valid_vocab "ab " "-" ".") by (unfold valid_vocab; compute_done).
  assert (H2 : whitespace_free "-") by (unfold whitespace_free; compute_done).
  assert (H3 : whitespace_free ".") by (unfold whitespace_free; compute_done).
  split; [exact H1|]. split; [exact H2|]. split; [exact H3|].
  split; [reflexivity|]. split; [reflexivity|].
  exact (whitespace_cells_zero ["Ab ba 1"; "b a"] "ab " "-" "." " " 2
           H1 H2 H3 eq_refl eq_refl).
Defined.

(** ** The plot and the script *)

Lemma run_each_ok {A} (body : A → Plot.drawing) (g : A → list Plot.call)
    (xs : list A) :
  (∀ x, x ∈ xs → body x = (g x, Ok tt)) →
  Plot.run_each body xs = (concat (g <$> xs), Ok tt).
Proof.
  induction xs as [|x xs IH]; intros Hbody; [done|].
  cbn. rewrite (Hbody x) by left.
  rewrite IH; [done|]. intros y Hy. apply Hbody. by right.
Qed.

(** A loop whose iterations end well or with [e], one of them with [e],
    ends with [e]. *)
Lemma run_each_raises {A} (body : A → Plot.drawing) (e : exn) (xs : list A) :
  (∀ x, x ∈ xs → (body x).2 = Ok tt ∨ (body x).2 = Raise e) →
  (∃ x, x ∈ xs ∧ (body x).2 = Raise e) →
  (Plot.run_each body xs).2 = Raise e.
Proof.
  induction xs as [|x xs IH]; intros Hall (y & Hy & Hraise).
  - by apply elem_of_nil in Hy.
  - cbn. destruct (body x) as [cs [[]|e']] eqn:E.
    + assert ((Plot.run_each body xs).2 = Raise e) as Hrest.
      { apply IH; [intros z Hz; apply Hall; by right|].
        apply elem_of_cons in Hy as [->|Hy]; [|by exists y].
        rewrite E in Hraise. done. }
      by destruct (Plot.run_each body xs) as [cs' r].
    + cbn. destruct (Hall x ltac:(left)) as [H|H]; rewrite E in H; cbn in H;
        congruence.
Qed.

Lemma square_shape (t : Tensor.tensor) (n : nat) :
  Tensor.has_shape t n n → Plot.shape0 t = n ∧ Plot.shape1 t = n.
Proof.
  intros [Hn Hrows]. split; [done|]. unfold Plot.shape1.
  destruct t as [|row t]; [done|]. by apply Forall_cons in Hrows as [-> _].
Qed.

Lemma cell_is_Some (t : Tensor.tensor) (n m i j : nat) :
  Tensor.has_shape t n m → (i < n)%nat → (j < m)%nat →
  ∃ v, Tensor.cell t i j = Some v.
Proof.
  intros [Hn Hrows] Hi Hj. unfold Tensor.cell.
  destruct (lookup_lt_is_Some_2 t i) as [row Hrow]; [lia|]. rewrite Hrow. cbn.
  apply lookup_lt_is_Some_2.
  eapply Forall_lookup_1 in Hrows; [|exact Hrow]. cbn in Hrows. lia.
Qed.

(** The annotation of the cells when every position has its character. *)
Lemma annotate_all_ok (t : Tensor.tensor) (i2c : dict Z string) (n : nat)
    (syms : list string) :
  Tensor.has_shape t n n →
  length syms = n →
  (∀ i c, syms !! i = Some c → dict_get i2c (Z.of_nat i) = Some c) →
  Plot.annotate_all t i2c
  = (concat ((λ i, concat (annotations t syms i <$> seq 0 n)) <$> seq 0 n),
     Ok tt).
Proof.
  intros Hshape Hlen Hsyms. unfold Plot.annotate_all.
  destruct (square_shape _ _ Hshape) as [-> ->].
  apply run_each_ok. intros i Hi%elem_of_seq.
  apply run_each_ok. intros j Hj%elem_of_seq.
  destruct (lookup_lt_is_Some_2 syms i) as [ci Hci]; [lia|].
  destruct (lookup_lt_is_Some_2 syms j) as [cj Hcj]; [lia|].
  destruct (cell_is_Some t n n i j Hshape) as [v Hv]; [lia..|].
  unfold Plot.annotate, annotations, dict_getitem.
  rewrite (Hsyms _ _ Hci), (Hsyms _ _ Hcj), Hv, Hci, Hcj. done.
Qed.

(** The annotation of the cells when a position has no character. *)
Lemma annotate_all_raises (t : Tensor.tensor) (i2c : dict Z string) (n k : nat) :
  Tensor.has_shape t n n →
  (k < n)%nat → dict_get i2c (Z.of_nat k) = None →
  (Plot.annotate_all t i2c).2 = Raise KeyError.
Proof.
  intros Hshape Hk Hnone. unfold Plot.annotate_all.
  destruct (square_shape _ _ Hshape) as [-> ->].
  assert (Hrow : ∀ i, i ∈ seq 0 n →
            (Plot.run_each (λ j, Plot.annotate t i2c i j) (seq 0 n)).2
            = Raise KeyError).
  { intros i Hi%elem_of_seq. apply run_each_raises.
    - intros j Hj%elem_of_seq. unfold Plot.annotate, dict_getitem.
      destruct (dict_get i2c (Z.of_nat i)); [|by right].
      destruct (dict_get i2c (Z.of_nat j)); [|by right].
      destruct (cell_is_Some t n n i j Hshape) as [v ->]; [lia..|]. by left.
    - exists k. split; [apply elem_of_seq; lia|].
      unfold Plot.annotate, dict_getitem. rewrite Hnone.
      by destruct (dict_get i2c (Z.of_nat i)). }
  apply run_each_raises.
  - intros i Hi. right. by apply Hrow.
  - exists 0%nat. assert (0%nat ∈ seq 0 n) by (apply elem_of_seq; lia).
    split; [done|]. by apply Hrow.
Qed.

(** X17.  When every position below the size of the table has a character
    in [idx_to_char], [plot_bigram_counts] raises nothing and draws, after
    the figure and the image, the cells row by row: at [x = j], [y = i]
    first the label [idx_to_char[i] + idx_to_char[j]], then the count of
    cell [(i, j)]; the axes are turned off and the figure is shown last. *)
Theorem plot_draws_every_cell (t : Tensor.tensor) (idx_to_char : dict Z string)
    (n : nat) (syms : list string) :
  Tensor.has_shape t n n →
  length syms = n →
  (∀ i c, syms !! i = Some c → dict_get idx_to_char (Z.of_nat i) = Some c) →
  Plot.plot_bigram_counts t idx_to_char
  = ([Plot.Figure 16 16; Plot.Imshow t "Blues"]
     ++ concat ((λ i, concat (annotations t syms i <$> seq 0 n)) <$> seq 0 n)
     ++ [Plot.Axis "off"; Plot.Show],
     Ok tt).
Proof.
  intros Hshape Hlen Hsyms. unfold Plot.plot_bigram_counts.
  by rewrite (annotate_all_ok t idx_to_char n syms Hshape Hlen Hsyms).
Qed.

Lemma plot_draws_every_cell_witness :
  let t := [[0; 5]; [2; 0]] in
  let idx_to_char := [(1, "b"); (0, "a")] in
  Tensor.has_shape t 2 2
  ∧ length ["a"; "b"] = 2%nat
  ∧ (∀ i c, ["a"; "b"] !! i = Some c → dict_get idx_to_char (Z.of_nat i) = Some c)
  ∧ Plot.plot_bigram_counts t idx_to_char
    = ([Plot.Figure 16 16; Plot.Imshow t "Blues"]
       ++ concat ((λ i, concat (annotations t ["a"; "b"] i <$> seq 0 2))
                    <$> seq 0 2)
       ++ [Plot.Axis "off"; Plot.Show],
       Ok tt).
Proof.
  intros t idx_to_char.
  assert (H1 : Tensor.has_shape t 2 2) by (split; [done|by repeat constructor]).
  assert (H3 : ∀ i c, ["a"; "b"] !! i = Some c →
                      dict_get idx_to_char (Z.of_nat i) = Some c).
  { intros [|[|i]] c; cbn; [by intros [= <-]..|done]. }
  split; [exact H1|]. split; [reflexivity|]. split; [exact H3|].
  exact (plot_draws_every_cell t idx_to_char 2 ["a"; "b"] H1 eq_refl H3).
Defined.

(** X18.  On a square table [plot_bigram_counts] raises exactly when some
    position below the size of the table is no key of [idx_to_char], and
    then it raises [KeyError]. *)
Theorem plot_raises_iff (t : Tensor.tensor) (idx_to_char : dict Z string)
    (n : nat) :
  Tensor.has_shape t n n →
  (forallb (λ k, dict_mem idx_to_char (Z.of_nat k)) (seq 0 n) = true
   ∧ (Plot.plot_bigram_counts t idx_to_char).2 = Ok tt)
  ∨ (forallb (λ k, dict_mem idx_to_char (Z.of_nat k)) (seq 0 n) = false
     ∧ (Plot.plot_bigram_counts t idx_to_char).2 = Raise KeyError).
Proof.
  intros Hshape.
  destruct (forallb (λ k, dict_mem idx_to_char (Z.of_nat k)) (seq 0 n)) eqn:E.
  - left. split; [done|]. rewrite forallb_forall in E.
    set (syms := (λ k, default "" (dict_get idx_to_char (Z.of_nat k))) <$> seq 0 n).
    unfold Plot.plot_bigram_counts.
    rewrite (annotate_all_ok t idx_to_char n syms Hshape); [done| |].
    + unfold syms. by rewrite length_fmap, length_seq.
    + intros i c Hi. unfold syms in Hi. rewrite list_lookup_fmap in Hi.
      destruct (seq 0 n !! i) as [k|] eqn:Ek; [|done].
      apply lookup_seq in Ek as [-> Hlt]. cbn in Hi. injection Hi as <-.
      specialize (E i). unfold dict_mem in E.
      destruct (dict_get idx_to_char (Z.of_nat i)); [done|].
      assert (false = true); [|done]. apply E. apply in_seq. lia.
  - right. split; [done|].
    assert (∃ k, (k < n)%nat ∧ dict_get idx_to_char (Z.of_nat k) = None)
      as (k & Hk & Hnone).
    { apply not_true_iff_false in E. rewrite forallb_forall in E.
      destruct (decide (Forall (λ k, is_Some (dict_get idx_to_char (Z.of_nat k)))
                          (seq 0 n))) as [Hall|Hex].
      - exfalso. apply E. intros k Hk%list_elem_of_In.
        rewrite Forall_forall in Hall. destruct (Hall k Hk) as [c Hc].
        unfold dict_mem. by rewrite Hc.
      - apply not_Forall_Exists in Hex; [|apply _].
        apply Exists_exists in Hex as (k & Hk%elem_of_seq & Hnone).
        exists k. split; [lia|]. cbn in Hnone.
        destruct (dict_get idx_to_char (Z.of_nat k)); [|done].
        exfalso. apply Hnone. by eexists. }
    pose proof (annotate_all_raises t idx_to_char n k Hshape Hk Hnone) as Hr.
    unfold Plot.plot_bigram_counts.
    destruct (Plot.annotate_all t idx_to_char) as [cs r]. cbn in Hr. by subst r.
Qed.

Lemma plot_raises_iff_witness :
  let t := [[0; 5]; [2; 0]] in
  Tensor.has_shape t 2 2
  ∧ ((forallb (λ k, dict_mem [(1, "b"); (2, "c")] (Z.of_nat k)) (seq 0 2) = true
      ∧ (Plot.plot_bigram_counts t [(1, "b"); (2, "c")]).2 = Ok tt)
     ∨ (forallb (λ k, dict_mem [(1, "b"); (2, "c")] (Z.of_nat k)) (seq 0 2) = false
        ∧ (Plot.plot_bigram_counts t [(1, "b"); (2, "c")]).2 = Raise KeyError)).
Proof.
  intros t.
  assert (H1 : Tensor.has_shape t 2 2) by (split; [done|by repeat constructor]).
  split; [exact H1|].
  exact (plot_raises_iff t [(1, "b"); (2, "c")] 2 H1).
Defined.

(** In a valid configuration position [i] of the reverse mapping holds the
    [i]-th symbol. *)
Lemma index_to_char_valid_get (a s e c : string) (i : nat) :
  valid_vocab a s e →
  symbols a s e !! i = Some c →
  dict_get (index_to_char (char_to_index a s e)) (Z.of_nat i) = Some c.
Proof.
  intros Hv Hi.
  assert (Hk : NoDup (dict_keys (char_to_index a s e))) by apply char_to_index_NoDup.
  assert (Hvals : NoDup (dict_values (char_to_index a s e))).
  { rewrite (char_to_index_valid_values _ _ _ Hv). apply NoDup_seqZ. }
  apply (index_to_char_inverse _ _ _ Hk Hvals).
  unfold symbols in Hi. destruct i as [|i].
  - injection Hi as <-. by apply char_to_index_valid_start.
  - cbn in Hi. apply lookup_app_Some in Hi as [Hi|[Hge Hi]].
    + rewrite (char_to_index_valid_kth _ _ _ _ _ Hv Hi). f_equal. lia.
    + rewrite length_chars in Hge, Hi.
      destruct (i - String.length a)%nat as [|m] eqn:Em; [|done].
      injection Hi as <-. rewrite char_to_index_end. f_equal. lia.
Qed.

(** X19.  In a valid configuration the script raises on no file: it
    draws the table the pipeline computes, every cell labelled with the two
    symbols of its row and column. *)
Theorem main_valid (lines : list string)
    (alphabet start_token end_token : string) :
  valid_vocab alphabet start_token end_token →
  let n := (String.length alphabet + 2)%nat in
  let syms := symbols alphabet start_token end_token in
  ∃ t, pipeline lines alphabet start_token end_token = Ok t
       ∧ Tensor.has_shape t n n
       ∧ Plot.main lines alphabet start_token end_token
         = ([Plot.Figure 16 16; Plot.Imshow t "Blues"]
            ++ concat ((λ i, concat (annotations t syms i <$> seq 0 n))
                         <$> seq 0 n)
            ++ [Plot.Axis "off"; Plot.Show],
            Ok tt).
Proof.
  intros Hv n syms. unfold pipeline, Plot.main. rewrite load_spec.
  cbn [mbind result_mbind result_bind].
  set (bgs := concat (line_bigrams start_token end_token <$> lines)).
  set (d := char_to_index alphabet start_token end_token).
  pose proof (char_to_index_in_range _ _ _ Hv) as Hrange. fold d in Hrange.
  pose proof (char_to_index_valid_len _ _ _ Hv) as Hlen. fold d n in Hlen.
  unfold count_bigrams.
  destruct (count_loop_cells d bgs (Tensor.zeros (dict_len d) (dict_len d))
              (λ _ _, 0) Hrange) as (t & Hloop & Hshape & _).
  { apply zeros_shape. }
  { intros i j Hi Hj. by apply cell_zeros. }
  rewrite Hlen in Hshape. exists t. rewrite Hloop.
  split; [done|]. split; [done|].
  unfold Plot.plot_bigram_counts.
  rewrite (annotate_all_ok t (index_to_char d) n syms Hshape); [done| |].
  - unfold syms, symbols. cbn. rewrite length_app, length_chars. cbn.
    unfold n. lia.
  - intros i c Hi. by apply index_to_char_valid_get.
Qed.

Lemma main_valid_witness :
  valid_vocab "ab" "-" "."
  ∧ let n := (String.length "ab" + 2)%nat in
    let syms := symbols "ab" "-" "." in
    ∃ t, pipeline ["Ab 1 2"; ""; "ba"] "ab" "-" "." = Ok t
         ∧ Tensor.has_shape t n n
         ∧ Plot.main ["Ab 1 2"; ""; "ba"] "ab" "-" "."
           = ([Plot.Figure 16 16; Plot.Imshow t "Blues"]
              ++ concat ((λ i, concat (annotations t syms i <$> seq 0 n))
                           <$> seq 0 n)
              ++ [Plot.Axis "off"; Plot.Show],
              Ok tt).
Proof.
  assert (Hv : valid_vocab "ab" "-" ".") by (unfold valid_vocab; compute_done).
  split; [exact Hv|].
  exact (main_valid ["Ab 1 2"; ""; "ba"] "ab" "-" "." Hv).
Defined.

(** X20.  Outside the valid configurations the script completes on no
    file: either the counting raises [IndexError] before anything is drawn,
    or the plot raises [KeyError] at a position that has no character. *)
Theorem main_invalid (lines : list string)
    (alphabet start_token end_token : string) :
  ¬ valid_vocab alphabet start_token end_token →
  Plot.main lines alphabet start_token end_token = ([], Raise IndexError)
  ∨ ∃ calls, Plot.main lines alphabet start_token end_token
             = (calls, Raise KeyError).
Proof.
  intros Hinv. unfold Plot.main. rewrite load_spec.
  set (bgs := concat (line_bigrams start_token end_token <$> lines)).
  set (d := char_to_index alphabet start_token end_token).
  pose proof (count_bigrams_general d bgs) as Hcount.
  destruct (existsb (misses_table d) bgs).
  - left. by rewrite Hcount.
  - right. destruct Hcount as (t & -> & Hshape & _).
    destruct (invalid_vocab_hole _ _ _ Hinv) as (k & Hk & Hnone).
    fold d in Hk, Hnone.
    pose proof (annotate_all_raises t (index_to_char d) _ k Hshape Hk Hnone) as Hr.
    unfold Plot.plot_bigram_counts.
    destruct (Plot.annotate_all t (index_to_char d)) as [cs r]. cbn in Hr. subst r.
    by eexists.
Qed.

Lemma main_invalid_witness :
  ¬ valid_vocab "a-" "-" "."
  ∧ (Plot.main ["ab 1 2"] "a-" "-" "." = ([], Raise IndexError)
     ∨ ∃ calls, Plot.main ["ab 1 2"] "a-" "-" "." = (calls, Raise KeyError)).
Proof.
  assert (Hinv : ¬ valid_vocab "a-" "-" ".") by (unfold valid_vocab; compute_done).
  split; [exact Hinv|]. exact (main_invalid ["ab 1 2"] "a-" "-" "." Hinv).
Defined.

(** ** The extractor over text of any code points *)

Lemma text_length_chars (s : list N) : length (Text.chars s) = length s.
Proof. unfold Text.chars. apply length_fmap. Qed.

Lemma text_lookup_chars (s : list N) (i : nat) :
  Text.chars s !! i = (λ c, [c]) <$> s !! i.
Proof. unfold Text.chars. apply list_lookup_fmap. Qed.

Lemma text_concat_chars (s : list N) : concat (Text.chars s) = s.
Proof. induction s as [|c s IH]; [done|]. cbn. by f_equal. Qed.

Lemma text_elem_of_chars (s x : list N) :
  x ∈ Text.chars s ↔ ∃ c, x = [c] ∧ c ∈ s.
Proof. unfold Text.chars. apply list_elem_of_fmap. Qed.

Lemma text_length_adjacent {A} (cs : list A) :
  length (Text.adjacent cs) = (length cs - 1)%nat.
Proof.
  unfold Text.adjacent. rewrite length_zip_with.
  destruct cs as [|c cs]; [done|]. cbn [list.tail length]. lia.
Qed.

Lemma text_lookup_adjacent {A} (cs : list A) (i : nat) (a b : A) :
  cs !! i = Some a → cs !! S i = Some b → Text.adjacent cs !! i = Some (a, b).
Proof.
  intros Ha Hb. unfold Text.adjacent.
  rewrite lookup_zip_with, lookup_tail, Ha, Hb. done.
Qed.

Lemma text_elem_of_adjacent {A} (cs : list A) (a b : A) :
  (a, b) ∈ Text.adjacent cs → a ∈ cs ∧ b ∈ cs.
Proof.
  unfold Text.adjacent. intros Hin. split.
  - by eapply elem_of_zip_l.
  - apply elem_of_zip_r in Hin. destruct cs; [done|]. by right.
Qed.

(** The first components of the neighbouring pairs, followed by the second
    component of the last pair, are the list itself. *)
Lemma text_adjacent_firsts_last {A} (cs : list A) (x y : A) :
  list.last (Text.adjacent cs) = Some (x, y) →
  (Text.adjacent cs).*1 ++ [y] = cs.
Proof.
  induction cs as [|a [|b cs] IH]; [done..|].
  change (Text.adjacent (a :: b :: cs))
    with ((a, b) :: Text.adjacent (b :: cs)).
  destruct (Text.adjacent (b :: cs)) as [|p ps] eqn:E.
  - intros [= <- <-]. destruct cs; [done|discriminate].
  - intros Hl. cbn [fmap list_fmap fst]. rewrite <- app_comm_cons. f_equal.
    apply IH. exact Hl.
Qed.

(** The comprehension of line 45 raises nothing and lists the neighbouring
    characters, whatever the padded word is. *)
Lemma text_word_bigrams_ok (pw : list N) :
  Text.word_bigrams pw = Ok (Text.adjacent (Text.chars pw)).
Proof.
  unfold Text.word_bigrams.
  set (cs := Text.chars pw).
  set (g := λ i : nat, (default [] (cs !! i), default [] (cs !! (i + 1)%nat))).
  assert (Hget : ∀ i x, cs !! i = Some x → Text.getitem pw i = Ok x).
  { intros i x. unfold cs. rewrite text_lookup_chars. unfold Text.getitem.
    destruct (pw !! i); cbn; congruence. }
  rewrite (comprehension_map _ g).
  - f_equal. apply list_eq. intros i.
    rewrite list_lookup_fmap, <- text_length_chars. fold cs.
    destruct (decide (i < length cs - 1)%nat) as [Hi|Hi].
    + rewrite lookup_seq_lt by done. cbn.
      destruct (lookup_lt_is_Some_2 cs i) as [a Ha]; [lia|].
      destruct (lookup_lt_is_Some_2 cs (S i)) as [b Hb]; [lia|].
      rewrite (text_lookup_adjacent cs i a b Ha Hb).
      unfold g. replace (i + 1)%nat with (S i) by lia. by rewrite Ha, Hb.
    + rewrite lookup_seq_ge by lia. cbn. symmetry.
      apply lookup_ge_None. rewrite text_length_adjacent. lia.
  - intros i Hi. apply elem_of_seq in Hi. rewrite <- text_length_chars in Hi.
    fold cs in Hi.
    destruct (lookup_lt_is_Some_2 cs i) as [a Ha]; [lia|].
    destruct (lookup_lt_is_Some_2 cs (i + 1)) as [b Hb]; [lia|].
    rewrite (Hget _ _ Ha). cbn. rewrite (Hget _ _ Hb). cbn.
    unfold g. by rewrite Ha, Hb.
Qed.

Lemma text_load_loop_spec (py : Text.runtime) (lines : list (list N))
    (s e : list N) (acc : list (list N * list N)) :
  Text.load_loop py lines s e acc
  = Ok (acc ++ concat (Text.line_bigrams py s e <$> lines)).
Proof.
  revert acc. induction lines as [|line lines IH]; intros acc; cbn.
  - by rewrite app_nil_r.
  - unfold Text.line_bigrams at 1. destruct (Text.split py line) as [|part0 parts].
    + apply IH.
    + rewrite text_word_bigrams_ok. cbn. rewrite IH. by rewrite <- app_assoc.
Qed.

(** The extractor never raises: its result is the concatenation of what
    each line adds. *)
Lemma text_load_spec (py : Text.runtime) (lines : list (list N)) (s e : list N) :
  Text.load_and_preprocess_data py lines s e
  = Ok (concat (Text.line_bigrams py s e <$> lines)).
Proof. apply text_load_loop_spec. Qed.

Lemma text_line_bigrams_word (py : Text.runtime) (s e line w : list N)
    (rest : list (list N)) :
  Text.split py line = w :: rest →
  Text.line_bigrams py s e line
  = Text.adjacent (Text.chars (s ++ Text.lower py w ++ e)).
Proof. unfold Text.line_bigrams. by intros ->. Qed.

(** C2 (as amended).  A record whose first whitespace-delimited token is
    [w], alone or anywhere in a source, yields the [len(padded) - 1] pairs
    [(padded[i], padded[i+1])] in order, where
    [padded = start_token + lower(w) + end_token]; with one-character
    sentinels and a word whose lowercase is as long as the word these are
    [len(w) + 1] bigrams; the first components of the bigrams followed by
    the second component of the last bigram spell the padded word. *)
Theorem record_bigrams (py : Text.runtime)
    (before after : list (list N)) (line w : list N) (rest : list (list N))
    (start_token end_token : list N) :
  Text.split py line = w :: rest →
  let padded := start_token ++ Text.lower py w ++ end_token in
  ∃ bgs b1 b2 : list (list N * list N),
    Text.load_and_preprocess_data py [line] start_token end_token = Ok bgs
    ∧ Text.load_and_preprocess_data py before start_token end_token = Ok b1
    ∧ Text.load_and_preprocess_data py after start_token end_token = Ok b2
    ∧ Text.load_and_preprocess_data py (before ++ line :: after)
        start_token end_token = Ok (b1 ++ bgs ++ b2)
    ∧ length bgs = (length padded - 1)%nat
    ∧ (∀ i, (i < length padded - 1)%nat →
         ∃ a b, padded !! i = Some a ∧ padded !! S i = Some b
                ∧ bgs !! i = Some ([a], [b]))
    ∧ (length start_token = 1%nat → length end_token = 1%nat →
       length (Text.lower py w) = length w →
       length bgs = (length w + 1)%nat)
    ∧ (∀ x y, list.last bgs = Some (x, y) → concat (bgs.*1) ++ y = padded).
Proof.
  intros Hsplit padded.
  exists (Text.adjacent (Text.chars padded)). do 2 eexists.
  assert (Hlen : length (Text.adjacent (Text.chars padded))
                 = (length padded - 1)%nat).
  { by rewrite text_length_adjacent, text_length_chars. }
  split; [|split; [|split; [|split; [|split; [exact Hlen|split; [|split]]]]]].
  - rewrite text_load_spec. cbn. rewrite app_nil_r.
    by rewrite (text_line_bigrams_word _ _ _ _ _ _ Hsplit).
  - apply text_load_spec.
  - apply text_load_spec.
  - rewrite text_load_spec, fmap_app, concat_app. cbn.
    by rewrite (text_line_bigrams_word _ _ _ _ _ _ Hsplit).
  - intros i Hi.
    destruct (lookup_lt_is_Some_2 padded i) as [a Ha]; [lia|].
    destruct (lookup_lt_is_Some_2 padded (S i)) as [b Hb]; [lia|].
    exists a, b. split; [done|]. split; [done|].
    apply text_lookup_adjacent; rewrite text_lookup_chars.
    + by rewrite Ha.
    + by rewrite Hb.
  - intros Hs He Hlow. rewrite Hlen. unfold padded.
    rewrite !length_app. lia.
  - intros x y Hlast.
    rewrite <- (text_concat_chars padded) at 2.
    rewrite <- (text_adjacent_firsts_last _ _ _ Hlast) at 2.
    rewrite concat_app. cbn. by rewrite app_nil_r.
Qed.

Lemma record_bigrams_witness :
  let py := Text.python_sample in
  let line := Text.of_string "Anna 5 3" in
  let w := Text.of_string "Anna" in
  let rest := [Text.of_string "5"; Text.of_string "3"] in
  let before := [Text.of_string "Bo 1 2"] in
  let after := [Text.of_string ""; Text.of_string "Cy"] in
  let start_token := Text.of_string "-" in
  let end_token := Text.of_string "." in
  Text.split py line = w :: rest
  ∧ let padded := start_token ++ Text.lower py w ++ end_token in
    ∃ bgs b1 b2 : list (list N * list N),
      Text.load_and_preprocess_data py [line] start_token end_token = Ok bgs
      ∧ Text.load_and_preprocess_data py before start_token end_token = Ok b1
      ∧ Text.load_and_preprocess_data py after start_token end_token = Ok b2
      ∧ Text.load_and_preprocess_data py (before ++ line :: after)
          start_token end_token = Ok (b1 ++ bgs ++ b2)
      ∧ length bgs = (length padded - 1)%nat
      ∧ (∀ i, (i < length padded - 1)%nat →
           ∃ a b, padded !! i = Some a ∧ padded !! S i = Some b
                  ∧ bgs !! i = Some ([a], [b]))
      ∧ (length start_token = 1%nat → length end_token = 1%nat →
         length (Text.lower py w) = length w →
         length bgs = (length w + 1)%nat)
      ∧ (∀ x y, list.last bgs = Some (x, y) → concat (bgs.*1) ++ y = padded).
Proof.
  intros py line w rest before after start_token end_token.
  assert (H : Text.split py line = w :: rest) by (vm_compute; reflexivity).
  split; [exact H|].
  exact (record_bigrams py before after line w rest start_token end_token H).
Defined.

(** The word of the two characters U+0130 and [x] has a lowercase of three
    characters and yields four bigrams. *)
Example dotted_capital_I_grows :
  Text.load_and_preprocess_data Text.python_sample [[304; 120]%N]
    (Text.of_string "-") (Text.of_string ".")
  = Ok [([45], [105]); ([105], [775]); ([775], [120]); ([120], [46])]%N.
Proof. vm_compute. reflexivity. Qed.



Lemma text_elem_of_load (py : Text.runtime) (lines : list (list N))
    (s e : list N) (bg : list N * list N) :
  bg ∈ concat (Text.line_bigrams py s e <$> lines) ↔
  ∃ line, line ∈ lines ∧ bg ∈ Text.line_bigrams py s e line.
Proof.
  induction lines as [|l lines IH]; cbn.
  - split; [by intros ?%elem_of_nil|]. by intros (? & ?%elem_of_nil & _).
  - rewrite elem_of_app, IH. split.
    + intros [Hbg|(line & Hline & Hbg)].
      * exists l. split; [left|done].
      * exists line. split; [by right|done].
    + intros (line & [->|Hline]%elem_of_cons & Hbg); [by left|].
      right. by exists line.
Qed.

(** X3.  Every component of every bigram is a single character, and that
    character is a character of a sentinel or of the lowercased first
    token of some line: nothing else of the file reaches the output. *)
Theorem bigram_characters_from_input (py : Text.runtime)
    (lines : list (list N)) (start_token end_token : list N) :
  ∃ bgs : list (list N * list N),
    Text.load_and_preprocess_data py lines start_token end_token = Ok bgs
    ∧ Forall (λ bg, Text.from_input py lines start_token end_token bg.1
                    ∧ Text.from_input py lines start_token end_token bg.2) bgs.
Proof.
  eexists. split; [apply text_load_spec|]. apply Forall_forall. intros bg Hbg.
  apply text_elem_of_load in Hbg as (line & Hline & Hbg).
  unfold Text.line_bigrams in Hbg.
  destruct (Text.split py line) as [|part0 rest] eqn:Hsplit;
    [by apply elem_of_nil in Hbg|].
  destruct bg as [x y]. apply text_elem_of_adjacent in Hbg as [Hx Hy].
  assert (Hfrom : ∀ z, z ∈ Text.chars (start_token ++ Text.lower py part0 ++ end_token) →
                       Text.from_input py lines start_token end_token z).
  { intros z (c & -> & Hc)%text_elem_of_chars. exists c. split; [done|].
    rewrite !elem_of_app in Hc. destruct Hc as [Hc|[Hc|Hc]];
      [by left| |by right; left].
    right. right. by exists line, part0, rest. }
  split; by apply Hfrom.
Qed.

Lemma text_length_line_bigrams (py : Text.runtime) (s e line : list N) :
  length (Text.line_bigrams py s e line) = Text.line_bigram_count py s e line.
Proof.
  unfold Text.line_bigrams, Text.line_bigram_count.
  destruct (Text.split py line) as [|part0 rest]; [done|].
  rewrite text_length_adjacent, text_length_chars, !length_app. lia.
Qed.

(** X4.  The number of bigrams is the sum over the lines with a token of
    [len(start_token) + len(lower(token)) + len(end_token) - 1]. *)
Theorem bigram_count_of_file (py : Text.runtime)
    (lines : list (list N)) (start_token end_token : list N) :
  ∃ bgs : list (list N * list N),
    Text.load_and_preprocess_data py lines start_token end_token = Ok bgs
    ∧ length bgs
      = list_sum (Text.line_bigram_count py start_token end_token <$> lines).
Proof.
  eexists. split; [apply text_load_spec|].
  rewrite length_concat. f_equal.
  change (map length (Text.line_bigrams py start_token end_token <$> lines))
    with (length <$> (Text.line_bigrams py start_token end_token <$> lines)).
  rewrite <- list_fmap_compose. apply list_fmap_ext.
  intros i line _. apply text_length_line_bigrams.
Qed.
